(** * nanover-utils: the recording reader ([read_state.py]) and the client
    recorder ([recording/nanover-client-recorder.py])

    A shallow embedding of the two scripts and the properties of the
    recording format, the state aggregation and the key rewriting tool.

    Python integers are [Z]; [bytes] objects are [list byte]; [str] objects
    are [string]; a [dict] is an insertion-ordered association list; an
    exception is the [Raise] branch of [result]. *)

From Stdlib Require Import ZArith List String Ascii Strings.Byte Bool Arith Lia.
From Stdlib Require Import DecimalString.
Import ListNotations.

Set Warnings "-register-all".

(* ================================================================== *)
(** * Part I: definitions *)
(* ================================================================== *)

(** ** Exceptions and the error monad *)

Inductive exn : Type :=
| InvalidMagicNumber
| UnsupportedFormatVersion (got : Z) (supported : list Z)
| EOFError
| OverflowError
| ValueError
| AttributeError (attribute : string)
| TruncatedFrame
| DecodeFailure.

Inductive result (A : Type) : Type :=
| Ok (a : A)
| Raise (e : exn).

Arguments Ok {A} a.
Arguments Raise {A} e.

Definition bind {A B : Type} (r : result A) (k : A -> result B) : result B :=
  match r with
  | Ok a => k a
  | Raise e => Raise e
  end.

Declare Scope py_scope.
Delimit Scope py_scope with py.
Notation "x <- r ;; k" := (bind r (fun x => k))
  (at level 61, r at next level, right associativity) : py_scope.
Notation "' p <- r ;; k" := (bind r (fun p => k))
  (at level 61, p pattern, r at next level, right associativity) : py_scope.

(** ** Integers and bytes *)

Module PyInt.

Definition bytes : Type := list byte.

Definition byte_of_Z (z : Z) : byte :=
  match Byte.of_N (Z.to_N (z mod 256)) with
  | Some b => b
  | None => x00
  end.

Definition Z_of_byte (b : byte) : Z := Z.of_N (Byte.to_N b).

(** The [length] low-order base-256 digits of [n], least significant
    first. *)
Fixpoint le_digits (n : Z) (length : nat) : bytes :=
  match length with
  | O => []
  | S l => byte_of_Z (n mod 256) :: le_digits (n / 256) l
  end.

(** [n.to_bytes(length, "little", signed=False)]: [OverflowError] on a
    negative integer and on one that does not fit in [length] bytes. *)
Definition to_bytes (n : Z) (length : nat) : result bytes :=
  if (n <? 0)%Z then Raise OverflowError
  else if (256 ^ Z.of_nat length <=? n)%Z then Raise OverflowError
  else Ok (le_digits n length).

(** [int.from_bytes(b, "little", signed=False)]. *)
Fixpoint from_bytes (b : bytes) : Z :=
  match b with
  | [] => 0
  | d :: rest => Z_of_byte d + 256 * from_bytes rest
  end.

End PyInt.
Import PyInt.

(** ** Input streams

    A binary input stream is the list of the bytes not consumed yet. *)

Definition istream : Type := bytes.

(** Modelled from the spec: [read_u64] is imported from
    [nanover.recording.reading]; the format fixes both header fields as
    [u64-LE].  It consumes exactly eight bytes and raises [EOFError] when the
    stream holds fewer. *)
Definition read_u64 (io : istream) : result (Z * istream) :=
  if (List.length io <? 8)%nat then Raise EOFError
  else Ok (from_bytes (firstn 8 io), skipn 8 io).

(** Modelled from the spec: the 128-bit little-endian elapsed time field of a
    frame, read like [read_u64]. *)
Definition read_u128 (io : istream) : result (Z * istream) :=
  if (List.length io <? 16)%nat then Raise EOFError
  else Ok (from_bytes (firstn 16 io), skipn 16 io).

(** ** [read_state.py]: the header *)

Record Header : Type := mkHeader {
  magic_number : Z;
  format_version : Z
}.

(** [Header.as_bytes] *)
Definition as_bytes (self : Header) : result bytes :=
  (magic_number_bytes <- to_bytes (magic_number self) 8 ;;
   format_version_bytes <- to_bytes (format_version self) 8 ;;
   Ok (magic_number_bytes ++ format_version_bytes))%py.

Definition supported_format_versions : list Z := [2%Z].

(** [x in t] on a tuple of integers. *)
Definition py_in (x : Z) (t : list Z) : bool := existsb (Z.eqb x) t.

(** [read_header]; [MAGIC_NUMBER] is the constant imported from
    [nanover.recording.reading]. *)
Definition read_header (MAGIC_NUMBER : Z) (input_stream : istream)
  : result (Header * istream) :=
  ('(magic_number, input_stream) <- read_u64 input_stream ;;
   if negb (magic_number =? MAGIC_NUMBER)%Z then Raise InvalidMagicNumber
   else
     '(format_version, input_stream) <- read_u64 input_stream ;;
     if negb (py_in format_version supported_format_versions)
     then Raise (UnsupportedFormatVersion format_version supported_format_versions)
     else Ok (mkHeader magic_number format_version, input_stream))%py.

(** ** Strings *)

Module PyStr.

(** [new] before every character of [s] and after the last one: what
    [s.replace("", new)] returns. *)
Fixpoint interleave (new s : string) : string :=
  match s with
  | EmptyString => new
  | String c rest => (new ++ String c (interleave new rest))%string
  end.

(** Left-to-right scan for non-overlapping occurrences of a non-empty
    [old]; [skip] counts the characters of the occurrence just replaced
    that are still to be dropped. *)
Fixpoint scan (old new s : string) (skip : nat) : string :=
  match s with
  | EmptyString => EmptyString
  | String c rest =>
      match skip with
      | S k => scan old new rest k
      | O =>
          if String.prefix old s
          then (new ++ scan old new rest (String.length old - 1))%string
          else String c (scan old new rest 0)
      end
  end.

(** [s.replace(old, new)] *)
Definition replace (s old new : string) : string :=
  match old with
  | EmptyString => interleave new s
  | _ => scan old new s 0
  end.

End PyStr.

(** ** Values of the shared state

    What the payload codec decodes a state update into: [None], booleans,
    numbers, strings, dictionaries keyed by strings and lists.  No function
    of the module looks inside a number. *)

Inductive Value : Type :=
| VNone
| VBool (b : bool)
| VNumber (x : Z)
| VStr (s : string)
| VDict (items : list (string * Value))
| VList (elements : list Value).

Definition is_not_None (value : Value) : bool :=
  match value with
  | VNone => false
  | _ => true
  end.

(** ** Dictionaries

    A [dict] keeps its items in insertion order; assigning to a key that is
    present keeps the key's position. *)

Module PyDict.

Definition dict : Type := list (string * Value).

Fixpoint get (d : dict) (key : string) : option Value :=
  match d with
  | [] => None
  | (k, v) :: rest => if String.eqb k key then Some v else get rest key
  end.

(** [d[key] = value] *)
Fixpoint set (d : dict) (key : string) (value : Value) : dict :=
  match d with
  | [] => [(key, value)]
  | (k, v) :: rest =>
      if String.eqb k key then (k, value) :: rest
      else (k, v) :: set rest key value
  end.

(** [d.update(other)] *)
Definition update (d other : dict) : dict :=
  fold_left (fun acc kv => set acc (fst kv) (snd kv)) other d.

(** The dictionary a comprehension builds from the items it produces, in
    the order it produces them. *)
Definition of_items (items : list (string * Value)) : dict :=
  update [] items.

Definition keys (d : dict) : list string := map fst d.

End PyDict.
Abbreviation dict := PyDict.dict.

(** Modelled from the spec: [DictionaryChange] is imported from
    [nanover.utilities.change_buffers]; a change holds the mapping [updates]
    and the set of keys [removals], and nothing else. *)
Record DictionaryChange : Type := mkChange {
  updates : dict;
  removals : list string
}.

(** What an attribute of a change evaluates to. *)
Inductive attribute_value : Type :=
| AUpdates (d : dict)
| ARemovals (s : list string).

(** [change.<name>] *)
Definition getattr (change : DictionaryChange) (name : string)
  : result attribute_value :=
  if String.eqb name "updates" then Ok (AUpdates (updates change))
  else if String.eqb name "removals" then Ok (ARemovals (removals change))
  else Raise (AttributeError name).

(** ** [read_state.py]: updates and aggregated states *)

(** [iter_updates] *)
Definition iter_updates (changes : list (Z * DictionaryChange))
  : list (Z * dict) :=
  map (fun tc => (fst tc, updates (snd tc))) changes.

(** [iter_full_states] is a generator that yields the very dictionary object
    it goes on to update when it is resumed.  The object store is explicit:
    an address is an index in the store, and allocation appends. *)

Module Store.

Definition ref : Type := nat.
Definition store : Type := list dict.

Definition deref (h : store) (r : ref) : dict := nth r h [].

Fixpoint assign (h : store) (r : ref) (d : dict) : store :=
  match h, r with
  | [], _ => []
  | _ :: rest, O => d :: rest
  | x :: rest, S r' => x :: assign rest r' d
  end.

Definition alloc (h : store) (d : dict) : store * ref :=
  (h ++ [d], List.length h).

End Store.
Import Store.

(** One [yield]: the timestamp, the yielded object and the store at that
    moment. *)
Record yielded : Type := mkYield {
  y_timestamp : Z;
  y_state : ref;
  y_store : store
}.

(** The body of the [for] loop of [iter_full_states], up to and including
    its [yield]. *)
Definition full_states_step (h : store) (aggregate_state : ref)
    (timestamp : Z) (change : DictionaryChange) : store * ref :=
  (* aggregate_state.update(change.updates) *)
  let h := assign h aggregate_state
             (PyDict.update (deref h aggregate_state) (updates change)) in
  (* aggregate_state = {key: value for ... if value is not None} *)
  alloc h (PyDict.of_items
             (filter (fun kv => is_not_None (snd kv)) (deref h aggregate_state))).

Fixpoint full_states_loop (h : store) (aggregate_state : ref)
    (changes : list (Z * DictionaryChange)) : list yielded * store :=
  match changes with
  | [] => ([], h)
  | (timestamp, change) :: rest =>
      let '(h, aggregate_state) :=
        full_states_step h aggregate_state timestamp change in
      let '(ys, final) := full_states_loop h aggregate_state rest in
      (mkYield timestamp aggregate_state h :: ys, final)
  end.

(** [iter_full_states], run to exhaustion from the store [h]: the yields in
    order and the store the generator leaves. *)
Definition iter_full_states (h : store) (changes : list (Z * DictionaryChange))
  : list yielded * store :=
  let '(h, aggregate_state) := alloc h [] in
  full_states_loop h aggregate_state changes.

(** What a consumer sees that reads each snapshot when it is yielded, as
    [command_line] does. *)
Definition seen_at_yield (run : list yielded * store) : list (Z * dict) :=
  map (fun y => (y_timestamp y, deref (y_store y) (y_state y))) (fst run).

(** What a consumer sees that keeps the yielded objects and reads them once
    the generator is exhausted, as [list(iter_full_states(changes))] does. *)
Definition seen_after_run (run : list yielded * store) : list (Z * dict) :=
  map (fun y => (y_timestamp y, deref (snd run) (y_state y))) (fst run).

(** The contents of the object yielded at position [i], read when the
    generator has been resumed [j - i] more times (at the [j]-th yield). *)
Definition seen_at (run : list yielded * store) (i j : nat) : option dict :=
  match nth_error (fst run) i, nth_error (fst run) j with
  | Some yi, Some yj => Some (deref (y_store yj) (y_state yi))
  | _, _ => None
  end.

(** ** Output streams and lazy inputs *)

(** A binary output stream is the log of the [write] calls made on it, oldest
    first; the file holds their concatenation. *)
Definition ostream : Type := list bytes.

Definition contents (output_stream : ostream) : bytes := List.concat output_stream.

(** A computation that writes: it leaves an output stream behind whether it
    returns or raises. *)
Definition writer (A : Type) : Type := ostream -> ostream * result A.

Definition wret {A : Type} (a : A) : writer A := fun out => (out, Ok a).

Definition wbind {A B : Type} (m : writer A) (k : A -> writer B) : writer B :=
  fun out =>
    match m out with
    | (out, Ok a) => k a out
    | (out, Raise e) => (out, Raise e)
    end.

Definition lift {A : Type} (r : result A) : writer A := fun out => (out, r).

(** [output_stream.write(b)] *)
Definition write (b : bytes) : writer unit := fun out => (out ++ [b], Ok tt).

Declare Scope writer_scope.
Delimit Scope writer_scope with writer.
Notation "x <~ m ;; k" := (wbind m (fun x => k))
  (at level 61, m at next level, right associativity) : writer_scope.
Notation "' p <~ m ;; k" := (wbind m (fun p => k))
  (at level 61, p pattern, m at next level, right associativity) : writer_scope.
Notation "m ;;; k" := (wbind m (fun _ => k))
  (at level 61, right associativity) : writer_scope.

(** What a [for] loop can draw from a generator or an asynchronous stream:
    the items in order, then either exhaustion or an exception. *)
Record lazy (A : Type) : Type := mkLazy {
  items : list A;
  ending : option exn
}.

Arguments mkLazy {A} items ending.
Arguments items {A} l.
Arguments ending {A} l.

(** [for x in source: body(x)] in a writer. *)
Fixpoint for_each {A : Type} (xs : list A) (ending : option exn)
    (body : A -> writer unit) : writer unit :=
  match xs with
  | [] => match ending with
          | None => wret tt
          | Some e => lift (Raise e)
          end
  | x :: rest => (body x ;;; for_each rest ending body)%writer
  end.

(** ** [read_state.py]: the key rewriting tool *)

(** [copy_header] *)
Definition copy_header (MAGIC_NUMBER : Z) (input_stream : istream)
  : writer (Header * istream) :=
  ('(header, input_stream) <~ lift (read_header MAGIC_NUMBER input_stream) ;;
   b <~ lift (as_bytes header) ;;
   write b ;;;
   wret (header, input_stream))%writer.

(** [recursive_replace] *)
Fixpoint recursive_replace (value : Value) (to_replace replace_by : string)
  : Value :=
  match value with
  | VDict d =>
      VDict (PyDict.of_items
               (map (fun kv =>
                       let '(key, value) := kv in
                       (PyStr.replace key to_replace replace_by,
                        recursive_replace value to_replace replace_by))
                    d))
  | _ => value
  end.

(** The comprehension assigned to [change.updates] in
    [replace_and_copy_records]. *)
Definition replace_updates (updates : dict) (to_replace replace_by : string)
  : dict :=
  PyDict.of_items
    (map (fun kv =>
            let '(key, value) := kv in
            (PyStr.replace key to_replace replace_by,
             recursive_replace value to_replace replace_by))
         updates).

(** The strings a [for] loop draws from the value of an attribute of a
    change: the keys of a dictionary, the members of a set. *)
Definition iterate (a : attribute_value) : list string :=
  match a with
  | AUpdates d => PyDict.keys d
  | ARemovals s => s
  end.

(** [key, value = s] for a string [s]: its two characters, or [ValueError]
    when it does not have exactly two. *)
Definition unpack_pair (s : string) : result (string * string) :=
  match s with
  | String a (String b EmptyString) =>
      Ok (String a EmptyString, String b EmptyString)
  | _ => Raise ValueError
  end.

(** [[key.replace(to_replace, replace_by) for key, value in iterable]] *)
Fixpoint replace_removals (iterable : list string)
    (to_replace replace_by : string) : result (list string) :=
  match iterable with
  | [] => Ok []
  | s :: rest =>
      ('(key, value) <- unpack_pair s ;;
       tail <- replace_removals rest to_replace replace_by ;;
       Ok (PyStr.replace key to_replace replace_by :: tail))%py
  end.

(** Modelled from the spec: [write_entry] is imported from
    [nanover.recording.writing]; it appends one frame, the 128-bit
    little-endian timestamp, the 64-bit little-endian payload length and the
    payload. *)
Definition write_entry (timestamp : Z) (payload : bytes) : writer unit :=
  (t <~ lift (to_bytes timestamp 16) ;;
   n <~ lift (to_bytes (Z.of_nat (List.length payload)) 8) ;;
   write (t ++ n ++ payload))%writer.

Section Rewriter.

(** The collaborators of the tool that are imported from the [nanover]
    package: the reader of a recording of state updates, and the payload
    codec ([dictionary_change_to_state_update] followed by the message's
    serialisation). *)
Variable iter_state_recording : istream -> lazy (Z * DictionaryChange).
Variable dictionary_change_to_state_update : DictionaryChange -> bytes.

(** The body of the loop of [replace_and_copy_records]. *)
Definition replace_and_copy_record (to_replace replace_by : string)
    (record : Z * DictionaryChange) : writer unit :=
  let '(timestamp, change) := record in
  (* change.updates = {...} *)
  let change :=
    mkChange (replace_updates (updates change) to_replace replace_by)
             (removals change) in
  (* change.removals = [... for key, value in change.removes] *)
  (removes <~ lift (getattr change "removes") ;;
   new_removals <~ lift (replace_removals (iterate removes)
                                          to_replace replace_by) ;;
   let change := mkChange (updates change) new_removals in
   write_entry timestamp (dictionary_change_to_state_update change))%writer.

(** [replace_and_copy_records] *)
Definition replace_and_copy_records (input_stream : istream)
    (to_replace replace_by : string) : writer unit :=
  let source := iter_state_recording input_stream in
  for_each (items source) (ending source)
           (replace_and_copy_record to_replace replace_by).

(** [replace_narupa] *)
Definition replace_narupa (input_stream : istream) : writer unit :=
  replace_and_copy_records input_stream "narupa" "nanover".

End Rewriter.

(** Modelled from the spec: [iter_state_recording] is imported from
    [nanover.recording.reading].  The reader validates the header once and
    then decodes frames until the stream ends at a frame boundary; a stream
    that ends inside a frame raises [TruncatedFrame].  [decode] is the payload
    codec. *)
Section Reader.

Variable MAGIC_NUMBER : Z.
Variable decode : bytes -> result DictionaryChange.

Fixpoint iter_frames (fuel : nat) (io : istream)
  : lazy (Z * DictionaryChange) :=
  match fuel, io with
  | O, _ | _, [] => mkLazy [] None
  | S fuel, _ :: _ =>
      match read_u128 io with
      | Raise _ => mkLazy [] (Some TruncatedFrame)
      | Ok (elapsed, io) =>
          match read_u64 io with
          | Raise _ => mkLazy [] (Some TruncatedFrame)
          | Ok (size, io) =>
              if (List.length io <? Z.to_nat size)%nat
              then mkLazy [] (Some TruncatedFrame)
              else
                match decode (firstn (Z.to_nat size) io) with
                | Raise e => mkLazy [] (Some e)
                | Ok change =>
                    let rest := iter_frames fuel (skipn (Z.to_nat size) io) in
                    mkLazy ((elapsed, change) :: items rest) (ending rest)
                end
          end
      end
  end.

Definition recording_reader (io : istream) : lazy (Z * DictionaryChange) :=
  match read_header MAGIC_NUMBER io with
  | Raise e => mkLazy [] (Some e)
  | Ok (_, io) => iter_frames (List.length io) io
  end.

End Reader.

(** The [--narupa] branch of [command_line]: the output file is opened for
    writing, hence empty, and handed to [replace_narupa]. *)
Definition command_line_narupa
    (iter_state_recording : istream -> lazy (Z * DictionaryChange))
    (dictionary_change_to_state_update : DictionaryChange -> bytes)
    (input_file : istream) : ostream * result unit :=
  replace_narupa iter_state_recording dictionary_change_to_state_update
                 input_file [].

(** ** [nanover-client-recorder.py] *)

Section Recorder.

(** [recordings.MAGIC_NUMBER], imported from [nanover.mdanalysis]. *)
Variable recordings_MAGIC_NUMBER : Z.

(** [write_header] *)
Definition write_header : writer unit :=
  (b <~ lift (to_bytes recordings_MAGIC_NUMBER 8) ;;
   write b ;;;
   b <~ lift (to_bytes 2 8) ;;
   write b)%writer.

(** The record [record_stream] builds for one message: [elapsed] is
    [perf_counter_µs() - start_time] and [frame_bytes] is
    [frame.SerializeToString()]. *)
Definition frame_record (elapsed : Z) (frame_bytes : bytes) : result bytes :=
  let frame_size := Z.of_nat (List.length frame_bytes) in
  (e <- to_bytes elapsed 16 ;;
   s <- to_bytes frame_size 8 ;;
   Ok (e ++ s ++ frame_bytes))%py.

(** The body of the loop of [record_stream]: a message comes with the value
    [perf_counter_µs()] returns when the body runs for it. *)
Definition record_message (start_time : Z) (message : Z * bytes)
  : writer unit :=
  let '(now, frame_bytes) := message in
  let elapsed := (now - start_time)%Z in
  (record <~ lift (frame_record elapsed frame_bytes) ;;
   write record)%writer.

(** [record_stream] *)
Definition record_stream (stream : lazy (Z * bytes)) (start_time : Z)
  : writer unit :=
  (write_header ;;;
   for_each (items stream) (ending stream) (record_message start_time))%writer.

End Recorder.

(** ** Notions the statements use *)

(** The aggregation as the specification words it: for each change,
    overwrite the accumulator with every key of the updates, then remove
    every key whose value is [None], and give out the accumulator. *)
Module Spec.

Definition overwrite (accumulator updates : dict) : dict :=
  PyDict.update accumulator updates.

Definition remove_nulls (accumulator : dict) : dict :=
  filter (fun kv => is_not_None (snd kv)) accumulator.

Fixpoint fold (accumulator : dict) (changes : list (Z * DictionaryChange))
  : list (Z * dict) :=
  match changes with
  | [] => []
  | (timestamp, change) :: rest =>
      let accumulator :=
        remove_nulls (overwrite accumulator (updates change)) in
      (timestamp, accumulator) :: fold accumulator rest
  end.

End Spec.

(** Every assignment [key := value] the changes make, oldest first. *)
Definition assignments (changes : list (Z * DictionaryChange))
  : list (string * Value) :=
  flat_map (fun tc => updates (snd tc)) changes.

(** The value most recently assigned to [key]. *)
Fixpoint last_assigned (l : list (string * Value)) (key : string)
  : option Value :=
  match l with
  | [] => None
  | (k, v) :: rest =>
      match last_assigned rest key with
      | Some v' => Some v'
      | None => if String.eqb k key then Some v else None
      end
  end.

(** A value that is kept only when it is not [None]. *)
Definition kept (o : option Value) : option Value :=
  match o with
  | Some v => if is_not_None v then Some v else None
  | None => None
  end.

(** What the objects yielded by the aggregation hold once the generator is
    exhausted: each snapshot but the last has been overwritten with the
    updates of the change that followed it. *)
Fixpoint retained (accumulator : dict) (changes : list (Z * DictionaryChange))
  : list (Z * dict) :=
  match changes with
  | [] => []
  | (timestamp, change) :: rest =>
      let accumulator :=
        Spec.remove_nulls (Spec.overwrite accumulator (updates change)) in
      (timestamp,
       match rest with
       | [] => accumulator
       | (_, next) :: _ => Spec.overwrite accumulator (updates next)
       end) :: retained accumulator rest
  end.

(** The value reached from [value] by following the keys of [path] through
    nested dictionaries. *)
Fixpoint lookup_path (value : Value) (path : list string) : option Value :=
  match path with
  | [] => Some value
  | key :: path =>
      match value with
      | VDict d =>
          match PyDict.get d key with
          | Some inner => lookup_path inner path
          | None => None
          end
      | _ => None
      end
  end.

(** The new name of a key, and the item a comprehension of the tool makes
    of an item. *)
Definition rename_key (to_replace replace_by key : string) : string :=
  PyStr.replace key to_replace replace_by.

Definition rewrite_item (to_replace replace_by : string)
    (kv : string * Value) : string * Value :=
  let '(key, value) := kv in
  (rename_key to_replace replace_by key,
   recursive_replace value to_replace replace_by).

Fixpoint distinct (l : list string) : bool :=
  match l with
  | [] => true
  | x :: rest => negb (existsb (String.eqb x) rest) && distinct rest
  end.

(** No two keys of one dictionary are replaced to the same text, in [value]
    and in every dictionary reached from it through dictionaries. *)
Fixpoint clash_free (value : Value) (to_replace replace_by : string) : bool :=
  match value with
  | VDict d =>
      distinct (map (fun kv => PyStr.replace (fst kv) to_replace replace_by) d)
      && forallb (fun kv => let '(_, inner) := kv in
                            clash_free inner to_replace replace_by) d
  | _ => true
  end.

(** ** [nanover-client-recorder.py]: the command line *)

(** What [parser.parse_args()] returns. *)
Record recorder_args : Type := mkArgs {
  address : string;
  port : Z;
  outfile_stem : string
}.

(** [str(n)] for an integer. *)
Definition str_int (n : Z) : string := NilZero.string_of_int (Z.to_int n).

(** [handle_user_input], from the parsed arguments on. *)
Definition handle_user_input (args : recorder_args)
  : string * string * string :=
  let address := (address args ++ ":" ++ str_int (port args))%string in
  let state_path := (outfile_stem args ++ ".state")%string in
  let trajectory_path := (outfile_stem args ++ ".traj")%string in
  (address, state_path, trajectory_path).

(** ** More notions the statements use *)

(** [old in s]: [old] starts at some position of [s]. *)
Fixpoint occurs (old s : string) : bool :=
  match s with
  | EmptyString => match old with EmptyString => true | _ => false end
  | String _ rest => String.prefix old s || occurs old rest
  end.

(** The keys of every dictionary reached from [value] through dictionaries
    are pairwise different, and [old] occurs in none of them. *)
Fixpoint untouched (value : Value) (old : string) : bool :=
  match value with
  | VDict d =>
      distinct (map fst d)
      && forallb (fun kv => let '(key, inner) := kv in
                            negb (occurs old key) && untouched inner old) d
  | _ => true
  end.

(** The snapshot before position [i]: the accumulator for [i = 0]. *)
Definition previous (acc : dict) (out : list (Z * dict)) (i : nat) : dict :=
  match i with
  | O => acc
  | S j => match nth_error out j with
           | Some (_, snapshot) => snapshot
           | None => []
           end
  end.

(** The record of a message whose elapsed time and size fit their fields. *)
Definition encoded_record (start_time : Z) (message : Z * bytes) : bytes :=
  le_digits (fst message - start_time) 16
  ++ le_digits (Z.of_nat (List.length (snd message))) 8
  ++ snd message.

(** The elapsed time of a message fits in 128 bits and its size in 64. *)
Definition fits (start_time : Z) (message : Z * bytes) : Prop :=
  (0 <= fst message - start_time < 2 ^ 128)%Z
  /\ (Z.of_nat (List.length (snd message)) < 2 ^ 64)%Z.

(** How a [for] loop ends that has drawn every item. *)
Definition ended (ending : option exn) : result unit :=
  match ending with
  | None => Ok tt
  | Some e => Raise e
  end.

(** ** Inputs used in the examples *)

Module Examples.

Open Scope string_scope.
Open Scope list_scope.
Open Scope Z_scope.

(** A 64-bit magic number. *)
Definition magic : Z := 6661355757386708963.

(** The three changes [{a: 1}], [{b: 2}], [{a: None}] at times 10, 20, 30. *)
Definition three_changes : list (Z * DictionaryChange) :=
  [ (10, mkChange [("a", VNumber 1)] []);
    (20, mkChange [("b", VNumber 2)] []);
    (30, mkChange [("a", VNone)] []) ].

(** The same updates with other removals. *)
Definition three_changes' : list (Z * DictionaryChange) :=
  [ (10, mkChange [("a", VNumber 1)] ["b"]);
    (20, mkChange [("b", VNumber 2)] []);
    (30, mkChange [("a", VNone)] ["a"; "c"]) ].

(** [{"narupa.list": [{"narupa.id": 1}], "narupa.map": {"narupa.id": 2}}] *)
Definition nested_updates : dict :=
  [ ("narupa.list", VList [VDict [("narupa.id", VNumber 1)]]);
    ("narupa.map", VDict [("narupa.id", VNumber 2)]) ].

(** The header with magic number [magic] and version [v], as bytes. *)
Definition header_bytes (v : Z) : bytes :=
  le_digits magic 8 ++ le_digits v 8.

(** A payload codec for the examples: every payload decodes to one and the
    same change, every change encodes to the empty payload. *)
Definition decode_any (payload : bytes) : result DictionaryChange :=
  Ok (mkChange [("narupa.k", VNumber 1)] ["narupa.r"]).
Definition encode_any (change : DictionaryChange) : bytes := [].

(** A recording with one frame at time 7 and a one byte payload. *)
Definition one_frame_recording : bytes :=
  header_bytes 2 ++ le_digits 7 16 ++ le_digits 1 8 ++ [x00].

End Examples.

(* ================================================================== *)
(** * Part II: properties *)
(* ================================================================== *)

(** ** Little-endian integers *)

Section Bytes.

Open Scope Z_scope.

Lemma Z_of_byte_range (b : byte) : 0 <= Z_of_byte b < 256.
Proof.
  unfold Z_of_byte. pose proof (Byte.to_N_bounded b). lia.
Qed.

Lemma Z_of_byte_of_Z (z : Z) : 0 <= z < 256 -> Z_of_byte (byte_of_Z z) = z.
Proof.
  intros Hz. unfold Z_of_byte, byte_of_Z.
  rewrite Z.mod_small by lia.
  destruct (Byte.of_N (Z.to_N z)) as [b|] eqn:E.
  - apply Byte.to_of_N in E. rewrite E. lia.
  - apply Byte.of_N_None_iff in E. lia.
Qed.

Lemma length_le_digits (len : nat) : forall n, List.length (le_digits n len) = len.
Proof.
  induction len as [|len IH]; intros n; simpl; [reflexivity|].
  now rewrite IH.
Qed.

Lemma from_bytes_le_digits (len : nat) :
  forall n, 0 <= n -> from_bytes (le_digits n len) = n mod 256 ^ Z.of_nat len.
Proof.
  induction len as [|len IH]; intros n Hn.
  - simpl. now rewrite Z.mod_1_r.
  - cbn [le_digits from_bytes].
    rewrite IH by (apply Z.div_pos; lia).
    rewrite Z_of_byte_of_Z by (apply Z.mod_pos_bound; lia).
    rewrite Nat2Z.inj_succ, Z.pow_succ_r by lia.
    rewrite (Z.rem_mul_r n 256 (256 ^ Z.of_nat len)) by lia.
    reflexivity.
Qed.

Lemma from_bytes_range (b : bytes) :
  0 <= from_bytes b < 256 ^ Z.of_nat (List.length b).
Proof.
  induction b as [|d b IH].
  - simpl. lia.
  - cbn [from_bytes List.length].
    rewrite Nat2Z.inj_succ, Z.pow_succ_r by lia.
    pose proof (Z_of_byte_range d). lia.
Qed.

(** What [to_bytes] returns on an integer in range. *)
Lemma to_bytes_ok (n : Z) (len : nat) :
  0 <= n < 256 ^ Z.of_nat len ->
  to_bytes n len = Ok (le_digits n len)
  /\ List.length (le_digits n len) = len
  /\ from_bytes (le_digits n len) = n.
Proof.
  intros Hn. unfold to_bytes.
  destruct (Z.ltb_spec n 0); [lia|].
  destruct (Z.leb_spec (256 ^ Z.of_nat len) n); [lia|].
  split; [reflexivity|]. split; [apply length_le_digits|].
  rewrite from_bytes_le_digits by lia. apply Z.mod_small. lia.
Qed.

Lemma to_bytes_overflow (n : Z) (len : nat) :
  n < 0 \/ 256 ^ Z.of_nat len <= n -> to_bytes n len = Raise OverflowError.
Proof.
  intros Hn. unfold to_bytes.
  destruct (Z.ltb_spec n 0); [reflexivity|].
  destruct (Z.leb_spec (256 ^ Z.of_nat len) n); [reflexivity|lia].
Qed.

End Bytes.

(** ** The header codec *)

Section HeaderCodec.

Open Scope Z_scope.

Variable MAGIC_NUMBER : Z.

Lemma firstn_length_app {A : Type} (l1 l2 : list A) :
  firstn (List.length l1) (l1 ++ l2) = l1.
Proof.
  rewrite firstn_app, firstn_all, Nat.sub_diag. cbn. apply app_nil_r.
Qed.

Lemma skipn_length_app {A : Type} (l1 l2 : list A) :
  skipn (List.length l1) (l1 ++ l2) = l2.
Proof.
  rewrite skipn_app, skipn_all, Nat.sub_diag. reflexivity.
Qed.

Lemma read_u64_app (b rest : bytes) :
  List.length b = 8%nat -> read_u64 (b ++ rest) = Ok (from_bytes b, rest).
Proof.
  intros Hb. unfold read_u64.
  rewrite length_app, Hb.
  replace (8 + List.length rest <? 8)%nat with false
    by (symmetry; apply Nat.ltb_ge; lia).
  rewrite <- Hb, firstn_length_app, skipn_length_app. reflexivity.
Qed.

(** [read_header] on sixteen bytes, by cases on the two fields. *)
Lemma read_header_16 (input : bytes) :
  List.length input = 16%nat ->
  read_header MAGIC_NUMBER input =
    let m := from_bytes (firstn 8 input) in
    let v := from_bytes (skipn 8 input) in
    if negb (m =? MAGIC_NUMBER) then Raise InvalidMagicNumber
    else if negb (v =? 2)
         then Raise (UnsupportedFormatVersion v supported_format_versions)
         else Ok (mkHeader m v, []).
Proof.
  intros Hlen.
  rewrite <- (firstn_skipn 8 input) at 1.
  unfold read_header.
  rewrite read_u64_app by (rewrite length_firstn; lia).
  cbn [bind]. cbv zeta.
  destruct (negb (from_bytes (firstn 8 input) =? MAGIC_NUMBER)); [reflexivity|].
  rewrite <- (app_nil_r (skipn 8 input)) at 1.
  rewrite read_u64_app by (rewrite length_skipn; lia).
  cbn [bind]. unfold py_in, supported_format_versions. cbn [existsb].
  rewrite orb_false_r. reflexivity.
Qed.

(** A header that was encoded is read back, whatever follows it. *)
Lemma read_header_encoded (rest : bytes) :
  0 <= MAGIC_NUMBER < 2 ^ 64 ->
  read_header MAGIC_NUMBER (le_digits MAGIC_NUMBER 8 ++ le_digits 2 8 ++ rest)
  = Ok (mkHeader MAGIC_NUMBER 2, rest).
Proof.
  intros HM. unfold read_header.
  rewrite read_u64_app by apply length_le_digits.
  cbn [bind].
  destruct (to_bytes_ok MAGIC_NUMBER 8) as (_ & _ & ->); [exact HM|].
  rewrite Z.eqb_refl. cbn [negb].
  rewrite read_u64_app by apply length_le_digits.
  reflexivity.
Qed.

(** C5: for every header whose magic number is [MAGIC_NUMBER] (a 64-bit
    constant) and whose version is supported, [as_bytes] returns sixteen
    bytes and [read_header] on them returns a header with the same fields,
    leaving nothing unread. *)
Theorem read_header_as_bytes (h : Header) :
  0 <= MAGIC_NUMBER < 2 ^ 64 ->
  magic_number h = MAGIC_NUMBER ->
  In (format_version h) supported_format_versions ->
  exists b,
    as_bytes h = Ok b
    /\ List.length b = 16%nat
    /\ read_header MAGIC_NUMBER b = Ok (h, []).
Proof.
  intros HM Hm Hv.
  destruct h as [m v]; cbn [magic_number format_version] in *.
  destruct Hv as [<-|[]]. subst m.
  exists (le_digits MAGIC_NUMBER 8 ++ le_digits 2 8).
  unfold as_bytes; cbn [magic_number format_version].
  destruct (to_bytes_ok MAGIC_NUMBER 8) as (-> & _ & _); [exact HM|].
  split; [reflexivity|]. split.
  - rewrite length_app, !length_le_digits. reflexivity.
  - rewrite <- (app_nil_r (le_digits 2 8)).
    now apply read_header_encoded.
Qed.

(** C6: on sixteen bytes [read_header] raises [InvalidMagicNumber] exactly
    when the first field differs from the constant; with a matching magic
    number it raises [UnsupportedFormatVersion] exactly when the second
    field is not 2, and then with the field read and the supported versions
    [(2,)], so that version 99 gives [UnsupportedFormatVersion(99, (2,))];
    it returns exactly when the magic number matches and the version is 2,
    and it returns the two fields. *)
Theorem read_header_outcomes (input : bytes) :
  List.length input = 16%nat ->
  let m := from_bytes (firstn 8 input) in
  let v := from_bytes (skipn 8 input) in
  (read_header MAGIC_NUMBER input = Raise InvalidMagicNumber
     <-> m <> MAGIC_NUMBER)
  /\ (m = MAGIC_NUMBER ->
      ((exists got supported,
           read_header MAGIC_NUMBER input
           = Raise (UnsupportedFormatVersion got supported)) <-> v <> 2)
      /\ (v <> 2 ->
          read_header MAGIC_NUMBER input
          = Raise (UnsupportedFormatVersion v [2]))
      /\ (v = 99 ->
          read_header MAGIC_NUMBER input
          = Raise (UnsupportedFormatVersion 99 [2])))
  /\ ((exists h rest, read_header MAGIC_NUMBER input = Ok (h, rest))
        <-> m = MAGIC_NUMBER /\ v = 2)
  /\ (m = MAGIC_NUMBER -> v = 2 ->
      read_header MAGIC_NUMBER input = Ok (mkHeader MAGIC_NUMBER 2, [])).
Proof.
  intros Hlen m v.
  rewrite (read_header_16 input Hlen). fold m v. cbv zeta.
  unfold supported_format_versions.
  destruct (Z.eqb_spec m MAGIC_NUMBER) as [Hm|Hm];
    destruct (Z.eqb_spec v 2) as [Hv|Hv]; cbn [negb].
  all: repeat split; intros;
    repeat match goal with
           | H : exists _, _ |- _ => destruct H
           | H : _ /\ _ |- _ => destruct H
           end;
    try discriminate; try congruence; try lia; eauto.
Qed.

End HeaderCodec.

(** The header round trip at the example magic number. *)
Lemma read_header_as_bytes_witness :
  exists b,
    as_bytes (mkHeader Examples.magic 2) = Ok b
    /\ List.length b = 16%nat
    /\ read_header Examples.magic b = Ok (mkHeader Examples.magic 2, []).
Proof.
  apply (@read_header_as_bytes Examples.magic (mkHeader Examples.magic 2)).
  - unfold Examples.magic. lia.
  - reflexivity.
  - simpl. left. reflexivity.
Defined.

(** Version 99 under the example magic number. *)
Lemma read_header_outcomes_witness :
  read_header Examples.magic (Examples.header_bytes 99)
  = Raise (UnsupportedFormatVersion 99 [2%Z]).
Proof.
  pose proof (@read_header_outcomes Examples.magic (Examples.header_bytes 99)
                eq_refl) as H.
  cbv zeta in H.
  destruct H as (_ & H & _).
  apply (H eq_refl). reflexivity.
Defined.

(** ** The recorder *)

Section RecorderProperties.

Open Scope Z_scope.

Lemma to_bytes_inv (n : Z) (len : nat) (b : bytes) :
  to_bytes n len = Ok b ->
  b = le_digits n len /\ 0 <= n < 256 ^ Z.of_nat len.
Proof.
  unfold to_bytes.
  destruct (Z.ltb_spec n 0); [discriminate|].
  destruct (Z.leb_spec (256 ^ Z.of_nat len) n); [discriminate|].
  intros [= <-]. split; [reflexivity|lia].
Qed.

(** A record that was built is the three fields one after the other. *)
Lemma frame_record_inv (elapsed : Z) (frame_bytes record : bytes) :
  frame_record elapsed frame_bytes = Ok record ->
  record = le_digits elapsed 16
           ++ le_digits (Z.of_nat (List.length frame_bytes)) 8 ++ frame_bytes
  /\ List.length record = (24 + List.length frame_bytes)%nat.
Proof.
  unfold frame_record.
  destruct (to_bytes elapsed 16) as [e|] eqn:Ee; [|discriminate].
  destruct (to_bytes (Z.of_nat (List.length frame_bytes)) 8) as [s|] eqn:Es;
    [|discriminate].
  cbn [bind]. intros [= <-].
  apply to_bytes_inv in Ee as [-> _]. apply to_bytes_inv in Es as [-> _].
  split; [reflexivity|].
  rewrite !length_app, !length_le_digits. lia.
Qed.

(** C7: for an elapsed time [t] below [2^128] and a payload [p] (a [bytes]
    object, whose length is below [2^64]), the record written for the
    message is the sixteen little-endian bytes of [t], the eight
    little-endian bytes of [len(p)] and [p], in one [write] of
    [24 + len(p)] bytes. *)
Theorem frame_record_layout (t : Z) (p : bytes) :
  0 <= t < 2 ^ 128 ->
  Z.of_nat (List.length p) < 2 ^ 64 ->
  let tb := le_digits t 16 in
  let sb := le_digits (Z.of_nat (List.length p)) 8 in
  frame_record t p = Ok (tb ++ sb ++ p)
  /\ List.length tb = 16%nat /\ from_bytes tb = t
  /\ List.length sb = 8%nat /\ from_bytes sb = Z.of_nat (List.length p)
  /\ List.length (tb ++ sb ++ p) = (24 + List.length p)%nat
  /\ forall (start_time now : Z) (outfile : ostream),
       now - start_time = t ->
       record_message start_time (now, p) outfile
       = (outfile ++ [tb ++ sb ++ p], Ok tt).
Proof.
  intros Ht Hp tb sb.
  destruct (to_bytes_ok t 16) as (Et & Lt & Ft); [exact Ht|].
  destruct (to_bytes_ok (Z.of_nat (List.length p)) 8) as (Es & Ls & Fs);
    [split; [lia|exact Hp]|].
  assert (Hrec : frame_record t p = Ok (tb ++ sb ++ p)).
  { unfold frame_record. rewrite Et. cbn [bind]. rewrite Es. reflexivity. }
  split; [exact Hrec|]. split; [exact Lt|]. split; [exact Ft|].
  split; [exact Ls|]. split; [exact Fs|]. split.
  - subst tb sb. rewrite !length_app, Lt, Ls. lia.
  - intros start_time now outfile <-.
    unfold record_message, wbind, lift, write.
    rewrite Hrec. reflexivity.
Qed.

(** The loop of [record_stream] only appends records, one for each message
    of a prefix of the stream, in order. *)
Lemma record_loop_appends (start_time : Z) (ending : option exn) :
  forall (messages : list (Z * bytes)) (outfile : ostream),
  exists (k : nat) (frames : list bytes) (r : result unit),
    for_each messages ending (record_message start_time) outfile
    = (outfile ++ frames, r)
    /\ Forall2 (fun message record =>
                  frame_record (fst message - start_time) (snd message)
                  = Ok record)
               (firstn k messages) frames
    /\ (r = Ok tt -> k = List.length messages /\ ending = None).
Proof.
  induction messages as [|[now p] rest IH]; intros outfile.
  - exists 0%nat, [], (match ending with None => Ok tt | Some e => Raise e end).
    cbn [for_each firstn]. rewrite app_nil_r.
    split; [destruct ending; reflexivity|]. split; [constructor|].
    destruct ending; [discriminate|auto].
  - cbn [for_each]. unfold wbind at 1.
    unfold record_message at 1. unfold wbind at 1, lift at 1.
    destruct (frame_record (now - start_time) p) as [record|e] eqn:E.
    + unfold write at 1.
      destruct (IH (outfile ++ [record])) as (k & frames & r & Hrun & Hfr & Hok).
      exists (S k), (record :: frames), r.
      rewrite Hrun, <- app_assoc. split; [reflexivity|].
      split; [cbn [firstn]; constructor; [exact E|exact Hfr]|].
      intros Hr. destruct (Hok Hr) as [-> ->]. auto.
    + exists 0%nat, [], (Raise e). rewrite app_nil_r.
      split; [reflexivity|]. split; [constructor|discriminate].
Qed.

(** C9: [record_stream] first makes the two writes of the header, the
    magic number and version 2 as 64-bit little-endian integers, and every
    later write is the record of a message, at least 24 bytes long; the
    reader's [read_header] accepts what the file then starts with and
    stops where the first record begins.  The constant the recorder imports
    is 64 bits wide and is the one the reader imports. *)
Theorem record_stream_header
    (recordings_MAGIC_NUMBER MAGIC_NUMBER : Z)
    (stream : lazy (Z * bytes)) (start_time : Z) (outfile : ostream) :
  0 <= recordings_MAGIC_NUMBER < 2 ^ 64 ->
  recordings_MAGIC_NUMBER = MAGIC_NUMBER ->
  exists (k : nat) (frames : list bytes) (r : result unit),
    record_stream recordings_MAGIC_NUMBER stream start_time outfile
    = (outfile ++ [le_digits MAGIC_NUMBER 8; le_digits 2 8] ++ frames, r)
    /\ from_bytes (le_digits MAGIC_NUMBER 8) = MAGIC_NUMBER
    /\ from_bytes (le_digits 2 8) = 2
    /\ Forall2 (fun message record =>
                  frame_record (fst message - start_time) (snd message)
                  = Ok record)
               (firstn k (items stream)) frames
    /\ Forall (fun record => (24 <= List.length record)%nat) frames
    /\ (r = Ok tt -> k = List.length (items stream))
    /\ read_header MAGIC_NUMBER
         (contents ([le_digits MAGIC_NUMBER 8; le_digits 2 8] ++ frames))
       = Ok (mkHeader MAGIC_NUMBER 2, contents frames).
Proof.
  intros HM <-.
  destruct (to_bytes_ok recordings_MAGIC_NUMBER 8) as (EM & _ & FM);
    [exact HM|].
  destruct (record_loop_appends start_time (ending stream) (items stream)
              ((outfile ++ [le_digits recordings_MAGIC_NUMBER 8])
                 ++ [le_digits 2 8]))
    as (k & frames & r & Hrun & Hfr & Hok).
  exists k, frames, r.
  split.
  { unfold record_stream, write_header, wbind, lift, write.
    rewrite EM. cbn [to_bytes]. 
    change (to_bytes 2 8) with (Ok (le_digits 2 8)).
    cbv iota beta.
    unfold wbind, lift, write in Hrun. rewrite Hrun.
    rewrite <- !app_assoc. reflexivity. }
  split; [exact FM|]. split; [reflexivity|]. split; [exact Hfr|].
  split.
  { clear Hrun Hok. induction Hfr as [|m c ms cs Hmc _ IH]; constructor.
    - apply frame_record_inv in Hmc as [_ ->]. lia.
    - exact IH. }
  split; [intros Hr; apply (Hok Hr)|].
  unfold contents. cbn [app List.concat].
  apply read_header_encoded. exact HM.
Qed.

End RecorderProperties.

(** The record of a one byte payload at elapsed time 7. *)
Lemma frame_record_layout_witness :
  frame_record 7 [x2a]
  = Ok (le_digits 7 16 ++ le_digits 1 8 ++ [x2a]).
Proof.
  apply (frame_record_layout 7 [x2a]); cbn; lia.
Defined.

(** A stream of two messages recorded into an empty file. *)
Lemma record_stream_header_witness :
  exists (k : nat) (frames : list bytes) (r : result unit),
    record_stream Examples.magic
      (mkLazy [(12%Z, [x01]); (15%Z, [])] None) 5 []
    = ([] ++ [le_digits Examples.magic 8; le_digits 2 8] ++ frames, r)
    /\ from_bytes (le_digits Examples.magic 8) = Examples.magic
    /\ from_bytes (le_digits 2 8) = 2%Z
    /\ Forall2 (fun message record =>
                  frame_record (fst message - 5) (snd message) = Ok record)
               (firstn k [(12%Z, [x01]); (15%Z, [])]) frames
    /\ Forall (fun record => (24 <= List.length record)%nat) frames
    /\ (r = Ok tt -> k = 2%nat)
    /\ read_header Examples.magic
         (contents ([le_digits Examples.magic 8; le_digits 2 8] ++ frames))
       = Ok (mkHeader Examples.magic 2, contents frames).
Proof.
  apply (record_stream_header Examples.magic Examples.magic
           (mkLazy [(12%Z, [x01]); (15%Z, [])] None) 5 []).
  - unfold Examples.magic. lia.
  - reflexivity.
Defined.

(** ** Dictionaries *)

Section DictFacts.

Import PyDict.

Lemma get_set (d : dict) (k key : string) (v : Value) :
  get (set d k v) key = if String.eqb k key then Some v else get d key.
Proof.
  induction d as [|[k0 v0] d IH]; cbn [set get].
  - reflexivity.
  - destruct (String.eqb_spec k0 k) as [->|Hk]; cbn [get].
    + destruct (String.eqb k key); reflexivity.
    + destruct (String.eqb_spec k0 key) as [->|Hk0].
      * destruct (String.eqb_spec k key); [congruence|reflexivity].
      * exact IH.
Qed.

Lemma get_update (other : dict) :
  forall (d : dict) (key : string),
    get (update d other) key =
      match last_assigned other key with
      | Some v => Some v
      | None => get d key
      end.
Proof.
  unfold update.
  induction other as [|[k v] other IH]; intros d key; cbn [fold_left last_assigned].
  - reflexivity.
  - rewrite IH. cbn [fst snd]. rewrite get_set.
    destruct (last_assigned other key); [reflexivity|].
    destruct (String.eqb k key); reflexivity.
Qed.

Lemma get_None_iff (d : dict) (key : string) :
  get d key = None <-> ~ In key (keys d).
Proof.
  unfold keys.
  induction d as [|[k v] d IH]; cbn [get map fst In].
  - tauto.
  - destruct (String.eqb_spec k key) as [->|Hk].
    + split; [discriminate|tauto].
    + rewrite IH. tauto.
Qed.

Lemma set_fresh (d : dict) (k : string) (v : Value) :
  ~ In k (keys d) -> set d k v = d ++ [(k, v)].
Proof.
  unfold keys.
  induction d as [|[k0 v0] d IH]; cbn [set map fst In app]; intros Hk.
  - reflexivity.
  - destruct (String.eqb_spec k0 k) as [->|_]; [tauto|].
    rewrite IH by tauto. reflexivity.
Qed.

(** Updating with items whose keys are new and pairwise different appends
    them. *)
Lemma update_fresh (other : dict) :
  forall d : dict,
    NoDup (keys other) ->
    (forall k, In k (keys other) -> ~ In k (keys d)) ->
    update d other = d ++ other.
Proof.
  unfold update, keys.
  induction other as [|[k v] other IH]; intros d Hnd Hfresh;
    cbn [fold_left map fst snd] in *.
  - now rewrite app_nil_r.
  - inversion Hnd as [|? ? Hk Hnd']; subst.
    rewrite set_fresh by (apply Hfresh; now left).
    rewrite IH; [now rewrite <- app_assoc| exact Hnd' |].
    intros k' Hk'. rewrite map_app, in_app_iff. cbn [map fst In].
    intros [Hin|[<-|[]]]; [|exact (Hk Hk')].
    apply (Hfresh k'); [now right|exact Hin].
Qed.

Lemma of_items_NoDup (l : dict) : NoDup (keys l) -> of_items l = l.
Proof.
  intros Hnd. unfold of_items. now rewrite update_fresh.
Qed.

Lemma keys_set (d : dict) (k : string) (v : Value) :
  keys (set d k v) = if existsb (String.eqb k) (keys d) then keys d
                     else keys d ++ [k].
Proof.
  unfold keys.
  induction d as [|[k0 v0] d IH]; cbn [set map fst existsb app].
  - reflexivity.
  - rewrite (String.eqb_sym k k0).
    destruct (String.eqb_spec k0 k) as [->|Hk]; cbn [orb map fst].
    + reflexivity.
    + rewrite IH. destruct (existsb (String.eqb k) (map fst d)); reflexivity.
Qed.

Lemma existsb_eqb_In (k : string) (l : list string) :
  existsb (String.eqb k) l = true <-> In k l.
Proof.
  rewrite existsb_exists. split.
  - intros (x & Hx & E). apply String.eqb_eq in E. now subst.
  - intros Hk. exists k. split; [exact Hk|apply String.eqb_refl].
Qed.

Lemma NoDup_keys_set (d : dict) (k : string) (v : Value) :
  NoDup (keys d) -> NoDup (keys (set d k v)).
Proof.
  intros Hnd. rewrite keys_set.
  destruct (existsb (String.eqb k) (keys d)) eqn:E; [exact Hnd|].
  apply NoDup_app; [exact Hnd|repeat constructor; intros []|].
  intros x Hx [<-|[]].
  apply existsb_eqb_In in Hx. congruence.
Qed.

Lemma NoDup_keys_update (other : dict) :
  forall d : dict, NoDup (keys d) -> NoDup (keys (update d other)).
Proof.
  unfold update.
  induction other as [|[k v] other IH]; intros d Hnd; cbn [fold_left].
  - exact Hnd.
  - apply IH. now apply NoDup_keys_set.
Qed.

Lemma NoDup_keys_filter (f : string * Value -> bool) (d : dict) :
  NoDup (keys d) -> NoDup (keys (filter f d)).
Proof.
  unfold keys.
  induction d as [|[k v] d IH]; cbn [filter map fst]; intros Hnd.
  - constructor.
  - inversion Hnd as [|? ? Hk Hnd']; subst.
    destruct (f (k, v)); [|now apply IH].
    cbn [map fst]. constructor; [|now apply IH].
    intros Hin. apply Hk.
    apply in_map_iff in Hin as ([k' v'] & E & Hin). cbn in E. subst k'.
    apply filter_In in Hin as [Hin _].
    apply in_map_iff. now exists (k, v').
Qed.

(** Looking a key up once the [None] values are gone, in a dictionary
    whose keys are unique. *)
Lemma get_remove_nulls (d : dict) (key : string) :
  NoDup (keys d) ->
  get (Spec.remove_nulls d) key =
    match get d key with
    | Some v => if is_not_None v then Some v else None
    | None => None
    end.
Proof.
  unfold Spec.remove_nulls, keys.
  induction d as [|[k v] d IH]; cbn [filter map fst get snd]; intros Hnd.
  - reflexivity.
  - inversion Hnd as [|? ? Hk Hnd']; subst.
    destruct (String.eqb_spec k key) as [->|Hne].
    + destruct (is_not_None v) eqn:Ev; cbn [get].
      * now rewrite String.eqb_refl.
      * apply get_None_iff. intros Hin. apply Hk.
        apply in_map_iff in Hin as ([k' v'] & E & Hin). cbn in E. subst k'.
        apply filter_In in Hin as [Hin _].
        apply in_map_iff. now exists (key, v').
    + destruct (is_not_None v); cbn [get].
      * destruct (String.eqb_spec k key); [congruence|]. now apply IH.
      * now apply IH.
Qed.

Lemma last_assigned_app (l1 l2 : list (string * Value)) (key : string) :
  last_assigned (l1 ++ l2) key =
    match last_assigned l2 key with
    | Some v => Some v
    | None => last_assigned l1 key
    end.
Proof.
  induction l1 as [|[k v] l1 IH]; cbn [app last_assigned].
  - destruct (last_assigned l2 key); reflexivity.
  - rewrite IH. destruct (last_assigned l2 key); reflexivity.
Qed.

End DictFacts.

(** ** The object store *)

Section StoreFacts.

Lemma deref_alloc (h : store) (d : dict) :
  deref (fst (alloc h d)) (snd (alloc h d)) = d.
Proof.
  unfold alloc, deref. cbn [fst snd]. apply nth_middle.
Qed.

Lemma length_assign (h : store) :
  forall (r : ref) (d : dict), List.length (assign h r d) = List.length h.
Proof.
  induction h as [|x h IH]; intros [|r] d; cbn [assign List.length];
    try reflexivity.
  now rewrite IH.
Qed.

Lemma deref_assign (h : store) :
  forall (r : ref) (d : dict),
    r < List.length h -> deref (assign h r d) r = d.
Proof.
  unfold deref.
  induction h as [|x h IH]; intros [|r] d Hr; cbn [assign List.length nth] in *;
    try lia; [reflexivity|].
  apply IH. lia.
Qed.

Lemma deref_assign_other (h : store) :
  forall (r r' : ref) (d : dict),
    r <> r' -> deref (assign h r d) r' = deref h r'.
Proof.
  unfold deref.
  induction h as [|x h IH]; intros [|r] [|r'] d Hr; cbn [assign nth];
    try reflexivity; try congruence.
  apply IH. congruence.
Qed.

Lemma deref_app (h l : store) (r : ref) :
  r < List.length h -> deref (h ++ l) r = deref h r.
Proof.
  intros Hr. unfold deref. now apply app_nth1.
Qed.

End StoreFacts.

(** ** The aggregation *)

Section Aggregation.

Import PyDict.

(** One turn of the loop of [iter_full_states] allocates the dictionary
    the specification's step computes, and yields it. *)
Lemma full_states_step_spec (h : store) (r : ref) (t : Z)
    (change : DictionaryChange) :
  r < List.length h ->
  NoDup (keys (deref h r)) ->
  let h' := fst (full_states_step h r t change) in
  let r' := snd (full_states_step h r t change) in
  deref h' r' = Spec.remove_nulls (Spec.overwrite (deref h r) (updates change))
  /\ r' < List.length h'
  /\ NoDup (keys (deref h' r')).
Proof.
  intros Hr Hnd h' r'. subst h' r'. unfold full_states_step.
  cbv zeta. rewrite deref_alloc.
  rewrite deref_assign by exact Hr.
  assert (Hnd' : NoDup (keys (Spec.remove_nulls
                                (Spec.overwrite (deref h r) (updates change))))).
  { apply NoDup_keys_filter. now apply NoDup_keys_update. }
  fold (Spec.remove_nulls (update (deref h r) (updates change))).
  fold (Spec.overwrite (deref h r) (updates change)).
  rewrite of_items_NoDup by exact Hnd'.
  split; [reflexivity|]. split; [|exact Hnd'].
  unfold alloc. cbn [fst snd]. rewrite length_app. cbn. lia.
Qed.

(** What is read at each [yield] is the specification's fold. *)
Lemma full_states_loop_refines (changes : list (Z * DictionaryChange)) :
  forall (h : store) (r : ref),
    r < List.length h ->
    NoDup (keys (deref h r)) ->
    seen_at_yield (full_states_loop h r changes)
    = Spec.fold (deref h r) changes.
Proof.
  induction changes as [|[t change] changes IH]; intros h r Hr Hnd.
  - reflexivity.
  - cbn [full_states_loop Spec.fold].
    destruct (full_states_step_spec h r t change Hr Hnd) as (Hd & Hr' & Hnd').
    destruct (full_states_step h r t change) as [h' r'] eqn:Estep.
    cbn [fst snd] in Hd, Hr', Hnd'.
    specialize (IH h' r' Hr' Hnd').
    destruct (full_states_loop h' r' changes) as [ys final] eqn:Eloop.
    unfold seen_at_yield in *. cbn [fst map y_timestamp y_store y_state] in *.
    rewrite Hd, IH, Hd. reflexivity.
Qed.

Lemma iter_full_states_refines (h : store)
    (changes : list (Z * DictionaryChange)) :
  seen_at_yield (iter_full_states h changes) = Spec.fold [] changes.
Proof.
  unfold iter_full_states.
  pose proof (deref_alloc h []) as Hd.
  destruct (alloc h []) as [h0 r0] eqn:E. cbn [fst snd] in Hd.
  rewrite full_states_loop_refines.
  - now rewrite Hd.
  - unfold alloc in E. injection E as <- <-. rewrite length_app. cbn. lia.
  - rewrite Hd. constructor.
Qed.

Lemma fold_timestamps (changes : list (Z * DictionaryChange)) :
  forall acc : dict, map fst (Spec.fold acc changes) = map fst changes.
Proof.
  induction changes as [|[t change] changes IH]; intros acc;
    cbn [Spec.fold map fst]; [reflexivity|].
  now rewrite IH.
Qed.

Lemma kept_iff (o : option Value) (v : Value) :
  kept o = Some v <-> o = Some v /\ v <> VNone.
Proof.
  unfold kept. destruct o as [w|].
  - destruct w; cbn [is_not_None]; split;
      try (intros [= <-]; split; [reflexivity|discriminate]);
      try (intros [[= <-] Hv]; reflexivity);
      try discriminate.
    intros [[= <-] Hv]. congruence.
  - split; [discriminate|intros [H _]; discriminate].
Qed.

(** In the fold, a key maps to the value most recently assigned to it,
    unless that value is [None]. *)
Lemma fold_last_assigned (changes : list (Z * DictionaryChange)) :
  forall (acc : dict) (history : list (string * Value)),
    NoDup (keys acc) ->
    (forall key, get acc key = kept (last_assigned history key)) ->
    forall (i : nat) (t : Z) (snapshot : dict),
      nth_error (Spec.fold acc changes) i = Some (t, snapshot) ->
      forall key,
        get snapshot key
        = kept (last_assigned
                  (history ++ assignments (firstn (S i) changes)) key).
Proof.
  induction changes as [|[t0 change] changes IH];
    intros acc history Hnd Hacc i t snapshot Hi key.
  - destruct i; discriminate Hi.
  - cbn [Spec.fold] in Hi.
    set (acc' := Spec.remove_nulls (Spec.overwrite acc (updates change))) in *.
    assert (Hnd' : NoDup (keys acc')).
    { apply NoDup_keys_filter. now apply NoDup_keys_update. }
    assert (Hacc' : forall key,
               get acc' key
               = kept (last_assigned (history ++ updates change) key)).
    { intros k. subst acc'.
      rewrite get_remove_nulls by now apply NoDup_keys_update.
      unfold Spec.overwrite. rewrite get_update, last_assigned_app.
      destruct (last_assigned (updates change) k) as [v|]; [reflexivity|].
      rewrite Hacc. unfold kept.
      destruct (last_assigned history k) as [v|]; [|reflexivity].
      destruct (is_not_None v) eqn:Ev; [now rewrite Ev|reflexivity]. }
    destruct i as [|i].
    + cbn [nth_error] in Hi. injection Hi as <- <-.
      cbn [firstn assignments flat_map snd]. rewrite app_nil_r.
      apply Hacc'.
    + cbn [nth_error] in Hi.
      rewrite (IH acc' (history ++ updates change) Hnd' Hacc' i t snapshot Hi key).
      cbn [firstn assignments flat_map snd].
      unfold assignments. now rewrite <- app_assoc.
Qed.

(** C1: read when they are yielded, the snapshots of [iter_full_states]
    are those of the specification's fold (overwrite with the updates, then
    remove the keys whose value is [None]), one for each change under the
    timestamp of the change; in each of them a key is present exactly when
    the value most recently assigned to it is not [None], and maps to that
    value; the changes [{a: 1}], [{b: 2}], [{a: None}] give [{a: 1}],
    [{a: 1, b: 2}], [{b: 2}]. *)
Theorem iter_full_states_snapshots (h : store)
    (changes : list (Z * DictionaryChange)) :
  let out := seen_at_yield (iter_full_states h changes) in
  out = Spec.fold [] changes
  /\ map fst out = map fst changes
  /\ (forall (i : nat) (t : Z) (snapshot : dict),
         nth_error out i = Some (t, snapshot) ->
         forall (key : string) (v : Value),
           get snapshot key = Some v
           <-> last_assigned (assignments (firstn (S i) changes)) key = Some v
               /\ v <> VNone)
  /\ map snd (seen_at_yield (iter_full_states h Examples.three_changes))
     = [ [("a"%string, VNumber 1)];
         [("a"%string, VNumber 1); ("b"%string, VNumber 2)];
         [("b"%string, VNumber 2)] ].
Proof.
  intros out. subst out.
  rewrite !iter_full_states_refines.
  split; [reflexivity|]. split; [apply fold_timestamps|]. split.
  - intros i t snapshot Hi key v.
    rewrite <- kept_iff.
    rewrite (fold_last_assigned changes [] [] (NoDup_nil _)
               (fun _ => eq_refl) i t snapshot Hi key).
    reflexivity.
  - reflexivity.
Qed.

End Aggregation.

(** ** The aggregation and the objects it yields *)

Section Aliasing.

Import PyDict.

(** The loop writes to the object it holds and to objects it allocates,
    and to no other; the object it holds when it starts is overwritten
    once, by the first change. *)
Lemma full_states_loop_store (changes : list (Z * DictionaryChange)) :
  forall (h : store) (r : ref),
    r < List.length h ->
    NoDup (keys (deref h r)) ->
    let ys := fst (full_states_loop h r changes) in
    let final := snd (full_states_loop h r changes) in
    (forall a, a < List.length h -> a <> r -> deref final a = deref h a)
    /\ deref final r
       = match changes with
         | [] => deref h r
         | (_, change) :: _ => Spec.overwrite (deref h r) (updates change)
         end
    /\ map (fun y => (y_timestamp y, deref final (y_state y))) ys
       = retained (deref h r) changes.
Proof.
  induction changes as [|[t change] changes IH]; intros h r Hr Hnd.
  - cbn. auto.
  - cbn [full_states_loop retained].
    destruct (full_states_step_spec h r t change Hr Hnd) as (Hd & Hr' & Hnd').
    assert (Hstep : full_states_step h r t change
                    = (assign h r (Spec.overwrite (deref h r) (updates change))
                         ++ [deref (fst (full_states_step h r t change))
                                   (snd (full_states_step h r t change))],
                       List.length h)).
    { unfold full_states_step at 1. unfold alloc at 1.
      rewrite length_assign. f_equal. f_equal. f_equal.
      unfold full_states_step. cbv zeta. now rewrite deref_alloc. }
    destruct (full_states_step h r t change) as [h' r'] eqn:Estep.
    cbn [fst snd] in Hd, Hr', Hnd', Hstep.
    injection Hstep as Eh' Er'.
    specialize (IH h' r' Hr' Hnd').
    destruct (full_states_loop h' r' changes) as [ys final] eqn:Eloop.
    cbn [fst snd] in IH |- *. destruct IH as (Hother & Hheld & Hys).
    assert (Hlen : List.length h' = S (List.length h)).
    { rewrite Eh', length_app, length_assign. cbn. lia. }
    assert (Hold : forall a, a < List.length h -> deref h' a
              = deref (assign h r (Spec.overwrite (deref h r) (updates change))) a).
    { intros a Ha. rewrite Eh'. apply deref_app. now rewrite length_assign. }
    split; [|split].
    + intros a Ha Hne. rewrite Hother by lia.
      rewrite Hold by exact Ha. now apply deref_assign_other.
    + rewrite Hother by lia. rewrite Hold by exact Hr.
      now apply deref_assign.
    + cbn [map y_timestamp y_state]. rewrite Hys, Hheld, Hd.
      destruct changes as [|[t' next] changes]; reflexivity.
Qed.

(** What is read from the yielded objects after the run. *)
Lemma iter_full_states_retained (h : store)
    (changes : list (Z * DictionaryChange)) :
  seen_after_run (iter_full_states h changes) = retained [] changes.
Proof.
  unfold iter_full_states, seen_after_run.
  pose proof (deref_alloc h []) as Hd.
  destruct (alloc h []) as [h0 r0] eqn:E. cbn [fst snd] in Hd.
  assert (Hr : r0 < List.length h0).
  { unfold alloc in E. injection E as <- <-. rewrite length_app. cbn. lia. }
  assert (Hnd : NoDup (keys (deref h0 r0))) by (rewrite Hd; constructor).
  destruct (full_states_loop_store changes h0 r0 Hr Hnd) as (_ & _ & Hys).
  rewrite Hys, Hd. reflexivity.
Qed.

Lemma fold_ext (cs1 : list (Z * DictionaryChange)) :
  forall (cs2 : list (Z * DictionaryChange)) (acc : dict),
    iter_updates cs1 = iter_updates cs2 ->
    Spec.fold acc cs1 = Spec.fold acc cs2.
Proof.
  induction cs1 as [|[t1 c1] cs1 IH]; intros [|[t2 c2] cs2] acc E;
    try discriminate E; [reflexivity|].
  cbn in E. injection E as <- Eu E.
  cbn [Spec.fold]. rewrite Eu. f_equal. now apply IH.
Qed.

Lemma retained_ext (cs1 : list (Z * DictionaryChange)) :
  forall (cs2 : list (Z * DictionaryChange)) (acc : dict),
    iter_updates cs1 = iter_updates cs2 ->
    retained acc cs1 = retained acc cs2.
Proof.
  induction cs1 as [|[t1 c1] cs1 IH]; intros [|[t2 c2] cs2] acc E;
    try discriminate E; [reflexivity|].
  cbn in E. injection E as <- Eu E.
  cbn [retained]. rewrite Eu. f_equal.
  - destruct cs1 as [|[? ?] ?], cs2 as [|[? ?] ?]; try discriminate E;
      [reflexivity|].
    cbn in E. injection E as _ Eu' _. now rewrite Eu'.
  - now apply IH.
Qed.

(** C8: two sequences of changes with the same timestamps and the same
    updates, whatever their removals, give the same timestamps and
    snapshots, from whatever store each run starts: read at each yield,
    and read after the run. *)
Theorem iter_full_states_depends_on_updates (h1 h2 : store)
    (cs1 cs2 : list (Z * DictionaryChange)) :
  iter_updates cs1 = iter_updates cs2 ->
  seen_at_yield (iter_full_states h1 cs1)
  = seen_at_yield (iter_full_states h2 cs2)
  /\ seen_after_run (iter_full_states h1 cs1)
     = seen_after_run (iter_full_states h2 cs2).
Proof.
  intros E. rewrite !iter_full_states_refines, !iter_full_states_retained.
  split; [now apply fold_ext|now apply retained_ext].
Qed.

Lemma fold_no_None (changes : list (Z * DictionaryChange)) :
  forall acc : dict,
    Forall (fun ts => Forall (fun kv => snd kv <> VNone) (snd ts))
           (Spec.fold acc changes).
Proof.
  induction changes as [|[t change] changes IH]; intros acc;
    cbn [Spec.fold]; constructor; [|apply IH].
  cbn [snd]. apply Forall_forall. intros [k v] Hin.
  apply filter_In in Hin as [_ Hv]. cbn [snd] in *.
  intros ->. discriminate Hv.
Qed.

(** C10, as amended: at the moment it is yielded, a snapshot holds no
    [None] value, whatever the changes. *)
Theorem iter_full_states_no_None_at_yield (h : store)
    (changes : list (Z * DictionaryChange)) :
  Forall (fun ts =>
            Forall (fun kv => snd kv <> VNone) (snd ts)
            /\ forall key, get (snd ts) key <> Some VNone)
         (seen_at_yield (iter_full_states h changes)).
Proof.
  rewrite iter_full_states_refines.
  eapply Forall_impl; [|apply fold_no_None].
  intros [t snapshot] Hall. cbn [snd] in *. split; [exact Hall|].
  intros key Hget.
  assert (Hin : In (key, VNone) snapshot).
  { clear Hall. induction snapshot as [|[k v] d IH]; [discriminate|].
    cbn [get] in Hget. destruct (String.eqb_spec k key) as [->|_].
    - injection Hget as ->. now left.
    - right. now apply IH. }
  rewrite Forall_forall in Hall. now apply (Hall _ Hin).
Qed.

End Aliasing.

(** The aggregation of two sequences that differ in their removals only,
    run from two different stores. *)
Lemma iter_full_states_depends_on_updates_witness :
  seen_at_yield (iter_full_states [] Examples.three_changes)
  = seen_at_yield (iter_full_states [[("x"%string, VNone)]] Examples.three_changes')
  /\ seen_after_run (iter_full_states [] Examples.three_changes)
     = seen_after_run
         (iter_full_states [[("x"%string, VNone)]] Examples.three_changes').
Proof.
  apply (iter_full_states_depends_on_updates
           [] [[("x"%string, VNone)]]
           Examples.three_changes Examples.three_changes').
  reflexivity.
Defined.

(** C10, as stated, fails: the object yielded for the second of the changes
    [{a: 1}], [{b: 2}], [{a: None}] is [{a: 1, b: 2}] when it is yielded and
    [{a: None, b: 2}] once the generator has been resumed, and it stays so. *)
Lemma iter_full_states_yielded_None :
  seen_at (iter_full_states [] Examples.three_changes) 1 1
  = Some [("a"%string, VNumber 1); ("b"%string, VNumber 2)]
  /\ seen_at (iter_full_states [] Examples.three_changes) 1 2
     = Some [("a"%string, VNone); ("b"%string, VNumber 2)]
  /\ map snd (seen_after_run (iter_full_states [] Examples.three_changes))
     = [ [("a"%string, VNumber 1); ("b"%string, VNumber 2)];
         [("a"%string, VNone); ("b"%string, VNumber 2)];
         [("b"%string, VNumber 2)] ]
  /\ ~ (forall (changes : list (Z * DictionaryChange)) (i j : nat)
               (snapshot : dict) (key : string),
           seen_at (iter_full_states [] changes) i j = Some snapshot ->
           PyDict.get snapshot key <> Some VNone).
Proof.
  split; [reflexivity|]. split; [reflexivity|]. split; [reflexivity|].
  intros H.
  apply (H Examples.three_changes 1 2
           [("a"%string, VNone); ("b"%string, VNumber 2)] "a"%string);
    reflexivity.
Qed.

(** ** The key rewriting tool *)

Section Rewriting.

Import PyDict.

Variables to_replace replace_by : string.

Local Abbreviation rename := (rename_key to_replace replace_by).
Local Abbreviation rewrite_item := (rewrite_item to_replace replace_by).

Lemma distinct_NoDup (l : list string) : distinct l = true -> NoDup l.
Proof.
  induction l as [|x l IH]; cbn [distinct]; intros H; constructor.
  - apply andb_prop in H as [H _]. intros Hin.
    apply existsb_eqb_In in Hin. rewrite Hin in H. discriminate H.
  - apply IH. now apply andb_prop in H as [_ H].
Qed.

Lemma keys_rewritten (d : dict) :
  keys (map rewrite_item d) = map rename (keys d).
Proof.
  unfold keys. rewrite !map_map. apply map_ext. now intros [k v].
Qed.

Lemma get_In (d : dict) (key : string) (v : Value) :
  get d key = Some v -> In (key, v) d.
Proof.
  induction d as [|[k0 v0] d IH]; cbn [get]; [discriminate|].
  destruct (String.eqb_spec k0 key) as [->|_].
  - intros [= ->]. now left.
  - intros H. right. now apply IH.
Qed.

(** A key that is present is found under its new name, with its value
    rewritten, when no two keys get the same new name. *)
Lemma get_rewritten (d : dict) (key : string) (v : Value) :
  NoDup (map rename (keys d)) ->
  get d key = Some v ->
  get (map rewrite_item d) (rename key)
  = Some (recursive_replace v to_replace replace_by).
Proof.
  unfold keys.
  induction d as [|[k0 v0] d IH]; cbn [get map fst rewrite_item];
    [discriminate|].
  intros Hnd Hget. inversion Hnd as [|? ? Hk Hnd']; subst.
  destruct (String.eqb_spec k0 key) as [->|Hne].
  - injection Hget as ->. now rewrite String.eqb_refl.
  - destruct (String.eqb_spec (rename k0) (rename key)) as [E|_].
    + exfalso. apply Hk. rewrite E.
      apply in_map. apply get_In in Hget.
      apply in_map_iff. now exists (key, v).
    + now apply IH.
Qed.

(** Every key of the rewritten dictionary is the new name of a key that
    was present, and holds the rewritten value of that key. *)
Lemma get_rewritten_inv (d : dict) (key' : string) (w : Value) :
  NoDup (map rename (keys d)) ->
  get (map rewrite_item d) key' = Some w ->
  exists key v,
    key' = rename key /\ get d key = Some v
    /\ w = recursive_replace v to_replace replace_by.
Proof.
  unfold keys.
  induction d as [|[k0 v0] d IH]; cbn [get map fst rewrite_item];
    [discriminate|].
  intros Hnd Hget. inversion Hnd as [|? ? Hk Hnd']; subst.
  destruct (String.eqb_spec (rename k0) key') as [<-|Hne].
  - injection Hget as <-. exists k0, v0.
    now rewrite String.eqb_refl.
  - destruct (IH Hnd' Hget) as (key & v & -> & Hg & ->).
    exists key, v. split; [reflexivity|]. split; [|reflexivity].
    destruct (String.eqb_spec k0 key) as [->|_]; [congruence|exact Hg].
Qed.

Lemma recursive_replace_dict (d : dict) :
  clash_free (VDict d) to_replace replace_by = true ->
  recursive_replace (VDict d) to_replace replace_by
  = VDict (map rewrite_item d)
  /\ NoDup (map rename (keys d))
  /\ forall key v, get d key = Some v ->
                   clash_free v to_replace replace_by = true.
Proof.
  cbn [clash_free]. intros H. apply andb_prop in H as [Hd Hall].
  apply distinct_NoDup in Hd.
  assert (Hnd : NoDup (map rename (keys d))).
  { unfold keys. rewrite map_map. exact Hd. }
  split; [|split; [exact Hnd|]].
  - cbn [recursive_replace]. f_equal.
    change (of_items (map rewrite_item d) = map rewrite_item d).
    apply of_items_NoDup. now rewrite keys_rewritten.
  - intros key v Hget. apply get_In in Hget.
    rewrite forallb_forall in Hall. exact (Hall _ Hget).
Qed.

Lemma lookup_rewritten (path : list string) :
  forall value v : Value,
    clash_free value to_replace replace_by = true ->
    lookup_path value path = Some v ->
    lookup_path (recursive_replace value to_replace replace_by)
                (map rename path)
    = Some (recursive_replace v to_replace replace_by).
Proof.
  induction path as [|key path IH]; intros value v Hcf Hl.
  - cbn in *. now injection Hl as ->.
  - cbn [lookup_path] in Hl.
    destruct value as [| | | |d|]; try discriminate Hl.
    destruct (get d key) as [inner|] eqn:Hget; [|discriminate Hl].
    destruct (recursive_replace_dict d Hcf) as (-> & Hnd & Hin).
    cbn [map lookup_path].
    rewrite (get_rewritten d key inner Hnd Hget).
    apply IH; [exact (Hin _ _ Hget)|exact Hl].
Qed.

Lemma lookup_rewritten_inv (path' : list string) :
  forall value w : Value,
    clash_free value to_replace replace_by = true ->
    lookup_path (recursive_replace value to_replace replace_by) path'
    = Some w ->
    exists path v,
      path' = map rename path
      /\ lookup_path value path = Some v
      /\ w = recursive_replace v to_replace replace_by.
Proof.
  induction path' as [|key' path' IH]; intros value w Hcf Hl.
  - cbn in Hl. injection Hl as <-. now exists [], value.
  - destruct value as [| | | |d|]; try discriminate Hl.
    destruct (recursive_replace_dict d Hcf) as (E & Hnd & Hin).
    rewrite E in Hl. cbn [lookup_path] in Hl.
    destruct (get (map rewrite_item d) key') as [inner'|] eqn:Hget;
      [|discriminate Hl].
    destruct (get_rewritten_inv d key' inner' Hnd Hget) as (key & inner & -> & Hg & ->).
    destruct (IH inner w (Hin _ _ Hg) Hl) as (path & v & -> & Hp & ->).
    exists (key :: path), v. cbn [map lookup_path]. rewrite Hg. auto.
Qed.

(** X17: in the updates the tool assigns to a change, the keys of the
    dictionaries nested in dictionaries are replaced at every depth (no two
    keys of one dictionary being replaced to the same text): a value found
    by following keys is found, rewritten, by following the replaced keys,
    and the new updates hold nothing else. *)
Theorem replace_updates_renames (updates : dict) :
  clash_free (VDict updates) to_replace replace_by = true ->
  let new := VDict (replace_updates updates to_replace replace_by) in
  (forall (path : list string) (v : Value),
      lookup_path (VDict updates) path = Some v ->
      lookup_path new
        (map (fun key => PyStr.replace key to_replace replace_by) path)
      = Some (recursive_replace v to_replace replace_by))
  /\ (forall (path' : list string) (w : Value),
         lookup_path new path' = Some w ->
         exists path v,
           path' = map (fun key => PyStr.replace key to_replace replace_by) path
           /\ lookup_path (VDict updates) path = Some v
           /\ w = recursive_replace v to_replace replace_by).
Proof.
  intros Hcf new.
  assert (Enew : new = recursive_replace (VDict updates) to_replace replace_by)
    by reflexivity.
  rewrite Enew. split.
  - intros path v. now apply lookup_rewritten.
  - intros path' w. now apply lookup_rewritten_inv.
Qed.

End Rewriting.

(** The updates [{"narupa.map": {"narupa.id": 2}}]: the nested key is
    found under its new name. *)
Lemma replace_updates_renames_witness :
  lookup_path
    (VDict (replace_updates
              [("narupa.map"%string, VDict [("narupa.id"%string, VNumber 2)])]
              "narupa" "nanover"))
    ["nanover.map"%string; "nanover.id"%string]
  = Some (VNumber 2).
Proof.
  pose proof (replace_updates_renames "narupa" "nanover"
                [("narupa.map"%string, VDict [("narupa.id"%string, VNumber 2)])]
                eq_refl) as H.
  cbv zeta in H. destruct H as (H & _).
  exact (H ["narupa.map"%string; "narupa.id"%string] (VNumber 2) eq_refl).
Defined.

(** C2: the replacement is to reach the keys of the dictionaries inside
    lists too, as the tool's documentation has it ("every occurrence ... in
    key names", "in all keys"); [recursive_replace] misses them.  For the
    updates [{"narupa.list": [{"narupa.id": 1}], "narupa.map": {"narupa.id":
    2}}] the key ["narupa.id"] of the dictionary inside the list is still
    there after the rewriting, although the replacement turns that text into
    ["nanover.id"], as it does for the same key under ["narupa.map"]. *)
Lemma replace_updates_skips_lists :
  replace_updates Examples.nested_updates "narupa" "nanover"
  = [ ("nanover.list"%string, VList [VDict [("narupa.id"%string, VNumber 1)]]);
      ("nanover.map"%string, VDict [("nanover.id"%string, VNumber 2)]) ]
  /\ PyStr.replace "narupa.id" "narupa" "nanover" = "nanover.id"%string
  /\ recursive_replace (VList [VDict [("narupa.id"%string, VNumber 1)]])
                       "narupa" "nanover"
     = VList [VDict [("narupa.id"%string, VNumber 1)]].
Proof.
  repeat split; reflexivity.
Qed.

(** ** The tool as a whole *)

Section Tool.

Variable iter_state_recording : istream -> lazy (Z * DictionaryChange).
Variable dictionary_change_to_state_update : DictionaryChange -> bytes.

(** The loop body raises before it writes: a change has no attribute
    [removes]. *)
Lemma replace_and_copy_record_raises (to_replace replace_by : string)
    (record : Z * DictionaryChange) (output_stream : ostream) :
  replace_and_copy_record dictionary_change_to_state_update
    to_replace replace_by record output_stream
  = (output_stream, Raise (AttributeError "removes")).
Proof.
  destruct record as [timestamp change]. reflexivity.
Qed.

Lemma first_record_raises (input_stream : istream)
    (to_replace replace_by : string) (output_stream : ostream)
    (record : Z * DictionaryChange) (rest : list (Z * DictionaryChange)) :
  items (iter_state_recording input_stream) = record :: rest ->
  replace_and_copy_records iter_state_recording
    dictionary_change_to_state_update input_stream to_replace replace_by
    output_stream
  = (output_stream, Raise (AttributeError "removes")).
Proof.
  intros Hitems. unfold replace_and_copy_records. rewrite Hitems.
  cbn [for_each]. unfold wbind.
  now rewrite replace_and_copy_record_raises.
Qed.

(** C3: on a recording with at least one record,
    [replace_and_copy_records] raises [AttributeError] at [change.removes]
    for the first record and has written nothing: no removal is replaced
    and no record is written back, under any timestamp. *)
Theorem replace_and_copy_records_raises (input_stream : istream)
    (to_replace replace_by : string) (output_stream : ostream)
    (record : Z * DictionaryChange) (rest : list (Z * DictionaryChange)) :
  items (iter_state_recording input_stream) = record :: rest ->
  replace_and_copy_records iter_state_recording
    dictionary_change_to_state_update input_stream to_replace replace_by
    output_stream
  = (output_stream, Raise (AttributeError "removes")).
Proof.
  exact (first_record_raises input_stream to_replace replace_by
           output_stream record rest).
Qed.

(** Whatever the recording, [replace_and_copy_records] leaves the output
    stream as it found it. *)
Lemma replace_and_copy_records_writes_nothing (input_stream : istream)
    (to_replace replace_by : string) (output_stream : ostream) :
  fst (replace_and_copy_records iter_state_recording
         dictionary_change_to_state_update input_stream
         to_replace replace_by output_stream)
  = output_stream.
Proof.
  destruct (items (iter_state_recording input_stream)) as [|record rest] eqn:E.
  - unfold replace_and_copy_records. rewrite E. cbn [for_each].
    destruct (ending (iter_state_recording input_stream)); reflexivity.
  - now rewrite (first_record_raises _ _ _ _ _ _ E).
Qed.

Lemma byte_of_Z_of_byte (b : byte) : byte_of_Z (Z_of_byte b) = b.
Proof.
  unfold byte_of_Z. pose proof (Z_of_byte_range b) as Hb.
  rewrite Z.mod_small by exact Hb.
  unfold Z_of_byte. rewrite N2Z.id, Byte.of_to_N. reflexivity.
Qed.

Lemma le_digits_from_bytes (b : bytes) :
  le_digits (from_bytes b) (List.length b) = b.
Proof.
  induction b as [|d b IH]; cbn [from_bytes List.length le_digits];
    [reflexivity|].
  pose proof (Z_of_byte_range d) as Hd.
  replace ((Z_of_byte d + 256 * from_bytes b) mod 256)%Z with (Z_of_byte d).
  2:{ rewrite (Z.mul_comm 256), Z.mod_add by lia.
      symmetry. now apply Z.mod_small. }
  replace ((Z_of_byte d + 256 * from_bytes b) / 256)%Z with (from_bytes b).
  2:{ rewrite (Z.mul_comm 256), Z.div_add by lia.
      rewrite (Z.div_small (Z_of_byte d)) by exact Hd. lia. }
  now rewrite byte_of_Z_of_byte, IH.
Qed.

(** A header that was read: the two fields, then the rest of the stream. *)
Lemma read_header_inv (MAGIC_NUMBER : Z) (input_stream : istream)
    (h : Header) (rest : istream) :
  read_header MAGIC_NUMBER input_stream = Ok (h, rest) ->
  exists b1 b2 : bytes,
    input_stream = b1 ++ b2 ++ rest
    /\ List.length b1 = 8 /\ List.length b2 = 8
    /\ h = mkHeader (from_bytes b1) (from_bytes b2).
Proof.
  unfold read_header, read_u64.
  destruct (List.length input_stream <? 8) eqn:L1; [discriminate|].
  unfold bind at 1.
  destruct (negb (from_bytes (firstn 8 input_stream) =? MAGIC_NUMBER)%Z);
    [discriminate|].
  destruct (List.length (skipn 8 input_stream) <? 8) eqn:L2; [discriminate|].
  unfold bind.
  destruct (negb (py_in (from_bytes (firstn 8 (skipn 8 input_stream)))
                    supported_format_versions)); [discriminate|].
  intros [= <- <-].
  apply Nat.ltb_ge in L1, L2. rewrite length_skipn in L2.
  exists (firstn 8 input_stream), (firstn 8 (skipn 8 input_stream)).
  rewrite !firstn_skipn, !length_firstn, length_skipn.
  repeat split; lia.
Qed.

(** [copy_header] writes the sixteen bytes it has read, as they are. *)
Lemma copy_header_identity (MAGIC_NUMBER : Z) (input_stream : istream)
    (h : Header) (rest : istream) (output_stream : ostream) :
  read_header MAGIC_NUMBER input_stream = Ok (h, rest) ->
  copy_header MAGIC_NUMBER input_stream output_stream
  = (output_stream ++ [firstn 16 input_stream], Ok (h, rest))
  /\ List.length (firstn 16 input_stream) = 16
  /\ input_stream = firstn 16 input_stream ++ rest.
Proof.
  intros Hread. unfold copy_header, wbind, lift. rewrite Hread.
  apply read_header_inv in Hread as (b1 & b2 & -> & Hb1 & Hb2 & ->).
  assert (E16 : firstn 16 (b1 ++ b2 ++ rest) = b1 ++ b2).
  { rewrite app_assoc.
    replace 16 with (List.length (b1 ++ b2)) by (rewrite length_app; lia).
    apply firstn_length_app. }
  rewrite E16. unfold as_bytes, magic_number, format_version.
  destruct (to_bytes_ok (from_bytes b1) 8) as (-> & _ & _).
  { rewrite <- Hb1. apply from_bytes_range. }
  destruct (to_bytes_ok (from_bytes b2) 8) as (-> & _ & _).
  { rewrite <- Hb2. apply from_bytes_range. }
  unfold bind, write.
  assert (E1 : le_digits (from_bytes b1) 8 = b1)
    by (rewrite <- Hb1; apply le_digits_from_bytes).
  assert (E2 : le_digits (from_bytes b2) 8 = b2)
    by (rewrite <- Hb2; apply le_digits_from_bytes).
  rewrite E1, E2.
  split; [reflexivity|]. split; [rewrite length_app; lia|].
  now rewrite <- app_assoc.
Qed.

(** C4: on a recording whose header is valid, the [--narupa] path leaves
    the output file empty, whereas [copy_header], which it never calls,
    writes the sixteen header bytes of the input. *)
Theorem replace_narupa_writes_no_header (MAGIC_NUMBER : Z)
    (input_file : istream) (h : Header) (rest : istream) :
  read_header MAGIC_NUMBER input_file = Ok (h, rest) ->
  contents (fst (command_line_narupa iter_state_recording
                   dictionary_change_to_state_update input_file))
  = []
  /\ contents (fst (copy_header MAGIC_NUMBER input_file []))
     = firstn 16 input_file
  /\ List.length (firstn 16 input_file) = 16.
Proof.
  intros Hread. unfold command_line_narupa, replace_narupa.
  rewrite replace_and_copy_records_writes_nothing.
  destruct (copy_header_identity MAGIC_NUMBER input_file h rest [] Hread)
    as (-> & Hlen & _).
  split; [reflexivity|]. split; [|exact Hlen].
  cbn. apply app_nil_r.
Qed.

End Tool.

(** The recording with one frame, read by the reader of the format: the tool
    raises at the first record. *)
Lemma replace_and_copy_records_raises_witness :
  replace_and_copy_records
    (recording_reader Examples.magic Examples.decode_any) Examples.encode_any
    Examples.one_frame_recording "narupa" "nanover" []
  = ([], Raise (AttributeError "removes")).
Proof.
  apply (replace_and_copy_records_raises
           (recording_reader Examples.magic Examples.decode_any)
           Examples.encode_any Examples.one_frame_recording
           "narupa" "nanover" []
           (7%Z, mkChange [("narupa.k"%string, VNumber 1)] ["narupa.r"%string])
           []).
  reflexivity.
Defined.

(** A recording that is a valid header and no frame: the copy is empty. *)
Lemma replace_narupa_writes_no_header_witness :
  contents (fst (command_line_narupa
                   (recording_reader Examples.magic Examples.decode_any)
                   Examples.encode_any (Examples.header_bytes 2)))
  = []
  /\ contents (fst (copy_header Examples.magic (Examples.header_bytes 2) []))
     = firstn 16 (Examples.header_bytes 2)
  /\ List.length (firstn 16 (Examples.header_bytes 2)) = 16.
Proof.
  apply (replace_narupa_writes_no_header
           (recording_reader Examples.magic Examples.decode_any)
           Examples.encode_any Examples.magic (Examples.header_bytes 2)
           (mkHeader Examples.magic 2) []).
  reflexivity.
Defined.

(** Were [change.removals] read instead, the loop would still take each
    removal for a pair: a key of two characters is cut to its first
    character, and any other key raises [ValueError]. *)
Lemma replace_removals_unpacks :
  replace_removals ["narupa.r"%string] "narupa" "nanover" = Raise ValueError
  /\ replace_removals ["ab"%string; "cd"%string] "a" "x"
     = Ok ["x"%string; "c"%string].
Proof.
  split; reflexivity.
Qed.

(* ================================================================== *)
(** * Part III: further properties *)
(* ================================================================== *)

(** ** The header: encoding, truncated and longer inputs *)

Section HeaderMore.

Open Scope Z_scope.

Variable MAGIC_NUMBER : Z.

Lemma pow_256_8 : 256 ^ Z.of_nat 8 = 2 ^ 64.
Proof. reflexivity. Qed.

(** [read_header] on two eight byte fields and what follows them. *)
Lemma read_header_fields (b1 b2 rest : bytes) :
  List.length b1 = 8%nat -> List.length b2 = 8%nat ->
  read_header MAGIC_NUMBER (b1 ++ b2 ++ rest) =
    if negb (from_bytes b1 =? MAGIC_NUMBER) then Raise InvalidMagicNumber
    else if negb (from_bytes b2 =? 2)
         then Raise (UnsupportedFormatVersion (from_bytes b2) [2])
         else Ok (mkHeader (from_bytes b1) (from_bytes b2), rest).
Proof.
  intros Hb1 Hb2. unfold read_header.
  rewrite read_u64_app by exact Hb1. unfold bind at 1.
  destruct (negb (from_bytes b1 =? MAGIC_NUMBER)); [reflexivity|].
  rewrite read_u64_app by exact Hb2. unfold bind.
  unfold py_in, supported_format_versions, existsb.
  rewrite orb_false_r. reflexivity.
Qed.

(** A stream of at least sixteen bytes is two fields and a rest. *)
Lemma split_16 (input : bytes) :
  (16 <= List.length input)%nat ->
  exists b1 b2 : bytes,
    List.length b1 = 8%nat /\ List.length b2 = 8%nat
    /\ input = b1 ++ b2 ++ skipn 16 input
    /\ firstn 16 input = b1 ++ b2
    /\ firstn 8 input = b1.
Proof.
  intros Hlen.
  exists (firstn 8 input), (firstn 8 (skipn 8 input)).
  assert (H1 : List.length (firstn 8 input) = 8%nat)
    by (rewrite length_firstn; lia).
  assert (H2 : List.length (firstn 8 (skipn 8 input)) = 8%nat)
    by (rewrite length_firstn, length_skipn; lia).
  assert (E : input = firstn 8 input ++ firstn 8 (skipn 8 input)
                        ++ skipn 16 input).
  { rewrite <- (firstn_skipn 8 input) at 1. f_equal.
    rewrite <- (firstn_skipn 8 (skipn 8 input)) at 1. f_equal.
    now rewrite skipn_skipn. }
  repeat split; try assumption.
  rewrite E at 1. rewrite app_assoc.
  replace 16%nat with (List.length (firstn 8 input ++ firstn 8 (skipn 8 input)))
    by (rewrite length_app; lia).
  apply firstn_length_app.
Qed.

(** X1: [as_bytes] returns exactly when both fields are unsigned 64-bit
    integers, and then sixteen bytes that hold the magic number in the first
    eight and the version in the last eight; otherwise it raises
    [OverflowError]. *)
Theorem as_bytes_outcomes (h : Header) :
  (0 <= magic_number h < 2 ^ 64 /\ 0 <= format_version h < 2 ^ 64 ->
   exists b,
     as_bytes h = Ok b
     /\ List.length b = 16%nat
     /\ from_bytes (firstn 8 b) = magic_number h
     /\ from_bytes (skipn 8 b) = format_version h)
  /\ (~ (0 <= magic_number h < 2 ^ 64 /\ 0 <= format_version h < 2 ^ 64) ->
      as_bytes h = Raise OverflowError)
  /\ (forall e, as_bytes h = Raise e -> e = OverflowError).
Proof.
  destruct h as [m v]. cbn [magic_number format_version]. unfold as_bytes.
  cbn [magic_number format_version].
  assert (Hcases : forall n, (0 <= n < 2 ^ 64
                              /\ to_bytes n 8 = Ok (le_digits n 8))
                             \/ (~ 0 <= n < 2 ^ 64
                                 /\ to_bytes n 8 = Raise OverflowError)).
  { intros n. destruct (Z_lt_dec n 0) as [Hn|Hn].
    - right. split; [lia|]. apply to_bytes_overflow. now left.
    - destruct (Z_le_dec (2 ^ 64) n) as [Hn'|Hn'].
      + right. split; [lia|]. apply to_bytes_overflow. right.
        now rewrite pow_256_8.
      + left. split; [lia|]. apply to_bytes_ok. rewrite pow_256_8. lia. }
  destruct (Hcases m) as [[Hm Em]|[Hm Em]];
    destruct (Hcases v) as [[Hv Ev]|[Hv Ev]];
    rewrite Em; unfold bind; try rewrite Ev.
  - split; [|split; [tauto|discriminate]].
    intros _. exists (le_digits m 8 ++ le_digits v 8).
    split; [reflexivity|].
    split; [rewrite length_app, !length_le_digits; reflexivity|].
    pose proof (firstn_length_app (le_digits m 8) (le_digits v 8)) as F.
    pose proof (skipn_length_app (le_digits m 8) (le_digits v 8)) as S.
    rewrite length_le_digits in F, S. rewrite F, S.
    split; apply to_bytes_ok; rewrite pow_256_8; assumption.
  - split; [tauto|]. split; [reflexivity|]. now intros e [= <-].
  - split; [tauto|]. split; [reflexivity|]. now intros e [= <-].
  - split; [tauto|]. split; [reflexivity|]. now intros e [= <-].
Qed.

(** A header that was read, field by field. *)
Lemma read_header_ok_inv (input : bytes) (h : Header) (rest : istream) :
  read_header MAGIC_NUMBER input = Ok (h, rest) ->
  (16 <= List.length input)%nat
  /\ rest = skipn 16 input
  /\ from_bytes (firstn 8 input) = MAGIC_NUMBER
  /\ h = mkHeader MAGIC_NUMBER 2
  /\ firstn 16 input = le_digits MAGIC_NUMBER 8 ++ le_digits 2 8
  /\ 0 <= MAGIC_NUMBER < 2 ^ 64.
Proof.
  intros Hread.
  destruct (read_header_inv MAGIC_NUMBER input h rest Hread)
    as (b1 & b2 & -> & Hb1 & Hb2 & ->).
  rewrite (read_header_fields b1 b2 rest Hb1 Hb2) in Hread.
  destruct (Z.eqb_spec (from_bytes b1) MAGIC_NUMBER) as [E1|]; [|discriminate].
  destruct (Z.eqb_spec (from_bytes b2) 2) as [E2|]; [|discriminate].
  cbn [negb] in Hread. clear Hread.
  assert (L : List.length (b1 ++ b2) = 16%nat) by (rewrite length_app; lia).
  assert (F1 : le_digits MAGIC_NUMBER 8 = b1)
    by (rewrite <- E1, <- Hb1; apply le_digits_from_bytes).
  assert (F2 : le_digits 2 8 = b2)
    by (rewrite <- E2, <- Hb2; apply le_digits_from_bytes).
  split; [rewrite !length_app; lia|].
  split; [rewrite app_assoc, <- L; now rewrite skipn_length_app|].
  split; [rewrite <- Hb1 at 1; now rewrite firstn_length_app|].
  split; [now rewrite E1, E2|].
  split; [rewrite app_assoc, <- L, firstn_length_app; now rewrite F1, F2|].
  rewrite <- E1, <- pow_256_8, <- Hb1. apply from_bytes_range.
Qed.

(** X2: [read_header] returns exactly on the streams that start with the
    encoding of the header made of the magic number and version 2; it
    returns that header and the stream after the sixteenth byte. *)
Theorem read_header_ok_iff (input : bytes) (h : Header) (rest : istream) :
  read_header MAGIC_NUMBER input = Ok (h, rest)
  <-> 0 <= MAGIC_NUMBER < 2 ^ 64
      /\ h = mkHeader MAGIC_NUMBER 2
      /\ input = le_digits MAGIC_NUMBER 8 ++ le_digits 2 8 ++ rest.
Proof.
  split.
  - intros Hread.
    destruct (read_header_ok_inv input h rest Hread)
      as (Hlen & -> & _ & -> & E16 & HM).
    split; [exact HM|]. split; [reflexivity|].
    rewrite app_assoc, <- E16. symmetry. apply firstn_skipn.
  - intros (HM & -> & ->). now apply read_header_encoded.
Qed.

(** X3: on fewer than sixteen bytes [read_header] never returns a header;
    the magic number is checked before the version is read, so that on eight
    bytes or more whose first eight are not the magic number it raises
    [InvalidMagicNumber], however short the rest is. *)
Theorem read_header_truncated (input : bytes) :
  (List.length input < 16)%nat ->
  (forall h rest, read_header MAGIC_NUMBER input <> Ok (h, rest))
  /\ ((8 <= List.length input)%nat ->
      from_bytes (firstn 8 input) <> MAGIC_NUMBER ->
      read_header MAGIC_NUMBER input = Raise InvalidMagicNumber).
Proof.
  intros Hlen. split.
  - intros h rest Hread.
    destruct (read_header_ok_inv input h rest Hread) as (H16 & _). lia.
  - intros H8 Hm. unfold read_header, read_u64.
    apply Nat.ltb_ge in H8. rewrite H8. unfold bind.
    destruct (Z.eqb_spec (from_bytes (firstn 8 input)) MAGIC_NUMBER);
      [contradiction|reflexivity].
Qed.

(** X4: on sixteen bytes or more, what [read_header] does is decided by the
    first sixteen; when it returns, it returns the stream after them. *)
Theorem read_header_prefix (input : bytes) :
  (16 <= List.length input)%nat ->
  read_header MAGIC_NUMBER input =
    match read_header MAGIC_NUMBER (firstn 16 input) with
    | Ok (h, _) => Ok (h, skipn 16 input)
    | Raise e => Raise e
    end.
Proof.
  intros Hlen.
  destruct (split_16 input Hlen) as (b1 & b2 & Hb1 & Hb2 & E & E16 & _).
  rewrite E16. rewrite E at 1.
  rewrite (read_header_fields b1 b2 (skipn 16 input) Hb1 Hb2).
  rewrite <- (app_nil_r b2) at 4.
  rewrite (read_header_fields b1 b2 [] Hb1 Hb2).
  destruct (negb (from_bytes b1 =? MAGIC_NUMBER)); [reflexivity|].
  destruct (negb (from_bytes b2 =? 2)); reflexivity.
Qed.

(** X5: [copy_header] writes nothing and raises what [read_header] raises
    when the header is not valid; otherwise it makes one write, of the
    sixteen bytes it has read, returns the header and the stream after them,
    and what it has written reads back as the same header. *)
Theorem copy_header_outcomes (input_stream : istream) (output_stream : ostream) :
  (forall e,
      read_header MAGIC_NUMBER input_stream = Raise e ->
      copy_header MAGIC_NUMBER input_stream output_stream
      = (output_stream, Raise e))
  /\ (forall h rest,
         read_header MAGIC_NUMBER input_stream = Ok (h, rest) ->
         copy_header MAGIC_NUMBER input_stream output_stream
         = (output_stream ++ [firstn 16 input_stream], Ok (h, rest))
         /\ input_stream = firstn 16 input_stream ++ rest
         /\ read_header MAGIC_NUMBER (contents [firstn 16 input_stream])
            = Ok (h, [])).
Proof.
  split.
  - intros e He. unfold copy_header, wbind, lift. now rewrite He.
  - intros h rest Hread.
    destruct (copy_header_identity MAGIC_NUMBER input_stream h rest
                output_stream Hread) as (Hco & _ & Hin).
    split; [exact Hco|]. split; [exact Hin|].
    destruct (read_header_ok_inv input_stream h rest Hread)
      as (_ & _ & _ & -> & E16 & HM).
    unfold contents. cbn [List.concat]. rewrite app_nil_r, E16.
    rewrite <- (app_nil_r (le_digits 2 8)).
    now apply read_header_encoded.
Qed.

End HeaderMore.

(** Nine bytes that start with the eight of another magic number. *)
Lemma read_header_truncated_witness :
  (forall h rest,
      read_header Examples.magic (le_digits 7 8 ++ [x02]) <> Ok (h, rest))
  /\ read_header Examples.magic (le_digits 7 8 ++ [x02])
     = Raise InvalidMagicNumber.
Proof.
  destruct (read_header_truncated Examples.magic (le_digits 7 8 ++ [x02]))
    as [Hnever Hmagic].
  - cbn. lia.
  - split; [exact Hnever|]. apply Hmagic.
    + cbn. lia.
    + cbv. discriminate.
Defined.

(** A header followed by the start of a frame. *)
Lemma read_header_prefix_witness :
  read_header Examples.magic Examples.one_frame_recording =
    match read_header Examples.magic (firstn 16 Examples.one_frame_recording) with
    | Ok (h, _) => Ok (h, skipn 16 Examples.one_frame_recording)
    | Raise e => Raise e
    end.
Proof.
  apply (read_header_prefix Examples.magic Examples.one_frame_recording).
  cbn. lia.
Defined.

(** ** The aggregation: prefixes, empty changes, kept snapshots *)

Section AggregationMore.

Import PyDict.

Lemma fold_prefix (cs1 cs2 : list (Z * DictionaryChange)) :
  forall acc : dict,
    firstn (List.length cs1) (Spec.fold acc (cs1 ++ cs2)) = Spec.fold acc cs1.
Proof.
  induction cs1 as [|[t c] cs1 IH]; intros acc; [reflexivity|].
  cbn [app List.length Spec.fold firstn]. now rewrite IH.
Qed.

(** X6: a snapshot depends on the changes up to its own only: the snapshots
    yielded for a sequence of changes are the first snapshots yielded for any
    longer sequence that starts with it. *)
Theorem iter_full_states_prefix (h h' : store)
    (cs1 cs2 : list (Z * DictionaryChange)) :
  firstn (List.length cs1) (seen_at_yield (iter_full_states h (cs1 ++ cs2)))
  = seen_at_yield (iter_full_states h' cs1).
Proof.
  rewrite !iter_full_states_refines. apply fold_prefix.
Qed.

Lemma remove_nulls_id (d : dict) :
  Forall (fun kv => snd kv <> VNone) d -> Spec.remove_nulls d = d.
Proof.
  unfold Spec.remove_nulls.
  induction 1 as [|[k v] d Hv _ IH]; cbn [filter snd] in *; [reflexivity|].
  destruct v; cbn [is_not_None]; now rewrite ?IH.
Qed.

Lemma remove_nulls_no_None (d : dict) :
  Forall (fun kv => snd kv <> VNone) (Spec.remove_nulls d).
Proof.
  apply Forall_forall. intros [k v] Hin.
  apply filter_In in Hin as [_ Hv]. cbn [snd] in *.
  intros ->. discriminate Hv.
Qed.

Lemma fold_empty_updates (changes : list (Z * DictionaryChange)) :
  forall (acc : dict) (i : nat) (t : Z) (c : DictionaryChange),
    Forall (fun kv => snd kv <> VNone) acc ->
    nth_error changes i = Some (t, c) ->
    updates c = [] ->
    nth_error (Spec.fold acc changes) i
    = Some (t, previous acc (Spec.fold acc changes) i).
Proof.
  induction changes as [|[t0 c0] changes IH]; intros acc i t c Hacc Hi Hc.
  - destruct i; discriminate Hi.
  - cbn [Spec.fold]. destruct i as [|i].
    + cbn [nth_error] in Hi |- *. injection Hi as <- <-.
      rewrite Hc. unfold Spec.overwrite, update. cbn [fold_left previous].
      now rewrite remove_nulls_id.
    + cbn [nth_error] in Hi |- *.
      rewrite (IH _ i t c (remove_nulls_no_None _) Hi Hc).
      destruct i; reflexivity.
Qed.

(** X7: a change without updates changes nothing: the snapshot yielded for
    it is the snapshot yielded for the change before it, and the empty
    dictionary when it is the first change. *)
Theorem iter_full_states_empty_change (h : store)
    (changes : list (Z * DictionaryChange)) (i : nat) (t : Z)
    (c : DictionaryChange) :
  nth_error changes i = Some (t, c) ->
  updates c = [] ->
  let out := seen_at_yield (iter_full_states h changes) in
  nth_error out i
  = Some (t, match i with
             | O => []
             | S j => match nth_error out j with
                      | Some (_, snapshot) => snapshot
                      | None => []
                      end
             end).
Proof.
  intros Hi Hc out. subst out. rewrite iter_full_states_refines.
  now rewrite (fold_empty_updates changes [] i t c (Forall_nil _) Hi Hc).
Qed.

Lemma retained_nth (changes : list (Z * DictionaryChange)) :
  forall (acc : dict) (i : nat) (t : Z) (snapshot : dict),
    nth_error (Spec.fold acc changes) i = Some (t, snapshot) ->
    nth_error (retained acc changes) i
    = Some (t, match nth_error changes (S i) with
               | Some (_, next) => update snapshot (updates next)
               | None => snapshot
               end).
Proof.
  induction changes as [|[t0 c0] changes IH]; intros acc i t snapshot Hi.
  - destruct i; discriminate Hi.
  - cbn [Spec.fold retained] in *. destruct i as [|i].
    + cbn [nth_error] in Hi |- *. injection Hi as <- <-.
      destruct changes as [|[t1 c1] changes]; reflexivity.
    + cbn [nth_error] in Hi. cbn [nth_error]. now apply IH.
Qed.

(** X8: a snapshot object the consumer keeps is overwritten in place with
    the updates of the next change when the generator is resumed, and by
    nothing else: after the run it holds its snapshot updated with the next
    change, the last one holds its snapshot; it maps a key to [None] exactly
    when the next change assigns [None] to the key. *)
Theorem iter_full_states_kept_snapshot (h : store)
    (changes : list (Z * DictionaryChange)) (i : nat) (t : Z)
    (snapshot : dict) :
  nth_error (seen_at_yield (iter_full_states h changes)) i
  = Some (t, snapshot) ->
  exists kept_object : dict,
    nth_error (seen_after_run (iter_full_states h changes)) i
    = Some (t, kept_object)
    /\ kept_object = match nth_error changes (S i) with
                     | Some (_, next) => update snapshot (updates next)
                     | None => snapshot
                     end
    /\ forall key,
         get kept_object key = Some VNone
         <-> exists t' next,
               nth_error changes (S i) = Some (t', next)
               /\ last_assigned (updates next) key = Some VNone.
Proof.
  intros Hi.
  pose proof (iter_full_states_refines h changes) as Hre.
  assert (Hnn : forall key, get snapshot key <> Some VNone).
  { intros key Hget.
    assert (Hsn : Forall (fun kv => snd kv <> VNone) snapshot).
    { pose proof (fold_no_None changes []) as Hall.
      rewrite <- Hre in Hall. rewrite Forall_forall in Hall.
      apply nth_error_In in Hi. exact (Hall _ Hi). }
    clear - Hget Hsn.
    induction snapshot as [|[k v] d IH]; [discriminate|].
    inversion Hsn as [|? ? Hv Hd]; subst. cbn [get snd] in *.
    destruct (String.eqb k key); [congruence|now apply IH]. }
  rewrite Hre in Hi. rewrite iter_full_states_retained.
  eexists. split; [exact (retained_nth changes [] i t snapshot Hi)|].
  split; [reflexivity|].
  intros key. destruct (nth_error changes (S i)) as [[t' next]|].
  - rewrite get_update. split.
    + intros Hget. exists t', next. split; [reflexivity|].
      destruct (last_assigned (updates next) key); [exact Hget|].
      now destruct (Hnn key).
    + intros (t'' & next' & [= <- <-] & Hla). now rewrite Hla.
  - split; [intros Hget; now destruct (Hnn key)|].
    intros (? & ? & Hd & _). discriminate Hd.
Qed.

End AggregationMore.

(** A change without updates between the second and the third of the
    example. *)
Lemma iter_full_states_empty_change_witness :
  nth_error
    (seen_at_yield
       (iter_full_states []
          [ (10%Z, mkChange [("a"%string, VNumber 1)] []);
            (15%Z, mkChange [] ["a"%string]) ])) 1
  = Some (15%Z, [("a"%string, VNumber 1)]).
Proof.
  apply (iter_full_states_empty_change []
           [ (10%Z, mkChange [("a"%string, VNumber 1)] []);
             (15%Z, mkChange [] ["a"%string]) ]
           1 15%Z (mkChange [] ["a"%string]));
    reflexivity.
Defined.

(** The object yielded for the second change of the example, kept. *)
Lemma iter_full_states_kept_snapshot_witness :
  exists kept_object : dict,
    nth_error (seen_after_run (iter_full_states [] Examples.three_changes)) 1
    = Some (20%Z, kept_object)
    /\ kept_object
       = match nth_error Examples.three_changes 2 with
         | Some (_, next) =>
             PyDict.update [("a"%string, VNumber 1); ("b"%string, VNumber 2)]
                           (updates next)
         | None => [("a"%string, VNumber 1); ("b"%string, VNumber 2)]
         end
    /\ forall key,
         PyDict.get kept_object key = Some VNone
         <-> exists t' next,
               nth_error Examples.three_changes 2 = Some (t', next)
               /\ last_assigned (updates next) key = Some VNone.
Proof.
  apply (iter_full_states_kept_snapshot [] Examples.three_changes 1 20%Z
           [("a"%string, VNumber 1); ("b"%string, VNumber 2)]).
  reflexivity.
Defined.

(** ** The key rewriting: clashes, order, keys that do not change *)

Section RewritingMore.

Import PyDict.

Variables to_replace replace_by : string.

Local Abbreviation rename := (rename_key to_replace replace_by).
Local Abbreviation rewrite_one := (rewrite_item to_replace replace_by).

Lemma replace_updates_eq (updates : dict) :
  replace_updates updates to_replace replace_by
  = of_items (map rewrite_one updates).
Proof. reflexivity. Qed.

Lemma last_assigned_None_iff (l : list (string * Value)) (key : string) :
  last_assigned l key = None <-> ~ In key (map fst l).
Proof.
  induction l as [|[k v] l IH]; cbn [last_assigned map fst In]; [tauto|].
  destruct (last_assigned l key) eqn:E.
  - split; [discriminate|]. intros H. exfalso.
    assert (Hn : ~ In key (map fst l)) by tauto.
    apply IH in Hn. discriminate Hn.
  - destruct (String.eqb_spec k key) as [->|Hne].
    + split; [discriminate|tauto].
    + split; [|reflexivity]. intros _ [Hk|Hin]; [congruence|].
      now apply IH in Hin.
Qed.

Lemma get_of_items (l : list (string * Value)) (key : string) :
  get (of_items l) key = last_assigned l key.
Proof.
  unfold of_items. rewrite get_update. cbn [get].
  now destruct (last_assigned l key).
Qed.

(** X9: whatever the keys, the dictionary the tool assigns to
    [change.updates] has pairwise different keys, which are the replaced keys
    of the updates; when several keys are replaced to the same text, the
    value under it is the rewritten value of the last of them, and the values
    of the others are lost. *)
Theorem replace_updates_last_wins (updates : dict) :
  let out := replace_updates updates to_replace replace_by in
  NoDup (keys out)
  /\ (forall key',
         In key' (keys out)
         <-> exists key,
               In key (keys updates)
               /\ PyStr.replace key to_replace replace_by = key')
  /\ (forall key' w,
         get out key' = Some w
         <-> last_assigned (map (rewrite_item to_replace replace_by) updates)
                           key' = Some w)
  /\ (List.length out <= List.length updates)%nat.
Proof.
  intros out. subst out. rewrite replace_updates_eq.
  split; [apply NoDup_keys_update; constructor|].
  split; [|split].
  - intros key'.
    assert (Hin : In key' (keys (of_items (map rewrite_one updates)))
                  <-> In key' (map fst (map rewrite_one updates))).
    { pose proof (get_None_iff (of_items (map rewrite_one updates)) key') as H1.
      pose proof (last_assigned_None_iff (map rewrite_one updates) key') as H2.
      rewrite get_of_items in H1.
      destruct (in_dec string_dec key' (keys (of_items (map rewrite_one updates))));
        destruct (in_dec string_dec key' (map fst (map rewrite_one updates)));
        tauto. }
    rewrite Hin, keys_rewritten. unfold keys. rewrite in_map_iff.
    split; intros (k & H1 & H2); exists k; tauto.
  - intros key' w. now rewrite get_of_items.
  - assert (Hlen : forall (l d : dict),
               (List.length (update d l) <= List.length d + List.length l)%nat).
    { unfold update. induction l as [|[k v] l IH]; intros d; cbn [fold_left].
      - cbn. lia.
      - specialize (IH (set d k v)). cbn [fst snd List.length] in *.
        assert (Hs : (List.length (set d k v) <= S (List.length d))%nat).
        { clear. induction d as [|[k0 v0] d IHd]; cbn [set List.length].
          - lia.
          - destruct (String.eqb k0 k); cbn [List.length]; lia. }
        lia. }
    specialize (Hlen (map rewrite_one updates) []).
    unfold of_items. rewrite length_map in Hlen. cbn in Hlen. exact Hlen.
Qed.

(** X10: when no two keys of the updates are replaced to the same text, the
    tool keeps every item, in the order of the updates: the [n]-th item is
    the [n]-th item of the updates with its key replaced and its value
    rewritten. *)
Theorem replace_updates_keeps_order (updates : dict) :
  NoDup (map (fun key => PyStr.replace key to_replace replace_by)
             (keys updates)) ->
  replace_updates updates to_replace replace_by
  = map (rewrite_item to_replace replace_by) updates
  /\ keys (replace_updates updates to_replace replace_by)
     = map (fun key => PyStr.replace key to_replace replace_by) (keys updates)
  /\ List.length (replace_updates updates to_replace replace_by)
     = List.length updates.
Proof.
  intros Hnd.
  assert (E : replace_updates updates to_replace replace_by
              = map rewrite_one updates).
  { rewrite replace_updates_eq. apply of_items_NoDup.
    rewrite keys_rewritten. exact Hnd. }
  rewrite E. split; [reflexivity|].
  split; [apply keys_rewritten|apply length_map].
Qed.

Lemma replace_absent (s : string) :
  occurs to_replace s = false ->
  PyStr.replace s to_replace replace_by = s.
Proof.
  unfold PyStr.replace.
  destruct to_replace as [|c0 old] eqn:Eold.
  - destruct s; cbn [occurs String.prefix]; discriminate.
  - rewrite <- Eold. clear Eold.
    induction s as [|c s IH]; [reflexivity|].
    cbn [occurs]. intros H. apply orb_false_elim in H as [Hp Ho].
    cbn [PyStr.scan]. rewrite Hp. now rewrite IH.
Qed.

Lemma recursive_replace_untouched :
  forall value : Value,
    untouched value to_replace = true ->
    recursive_replace value to_replace replace_by = value.
Proof.
  fix IH 1. intros [| | | |d|] H; try reflexivity.
  cbn [untouched] in H. apply andb_prop in H as [Hd Hall].
  cbn [recursive_replace]. f_equal.
  change (of_items (map rewrite_one d) = d).
  assert (Hmap : map rewrite_one d = d).
  { clear Hd. induction d as [|[k x] d IHd]; [reflexivity|].
    cbn [map forallb rewrite_item] in *.
    apply andb_prop in Hall as [Hkx Hall].
    apply andb_prop in Hkx as [Hk Hx].
    apply negb_true_iff in Hk.
    unfold rename_key. rewrite (replace_absent k Hk), (IH x Hx).
    now rewrite (IHd Hall). }
  rewrite Hmap. apply of_items_NoDup. now apply distinct_NoDup.
Qed.

(** X11: a value in which the text to replace occurs in no key of any
    dictionary reached through dictionaries (their keys being pairwise
    different) is returned as it is; so are updates made of such values. *)
Theorem replace_updates_untouched (updates : dict) :
  untouched (VDict updates) to_replace = true ->
  replace_updates updates to_replace replace_by = updates
  /\ forall path v,
       lookup_path (VDict updates) path = Some v ->
       recursive_replace v to_replace replace_by = v.
Proof.
  intros H.
  pose proof (recursive_replace_untouched (VDict updates) H) as E.
  cbn [recursive_replace] in E. injection E as E.
  split; [exact E|].
  intros path. revert H. generalize (VDict updates). clear E.
  induction path as [|key path IHp]; intros value H v Hl.
  - cbn in Hl. injection Hl as <-. now apply recursive_replace_untouched.
  - cbn [lookup_path] in Hl.
    destruct value as [| | | |d|]; try discriminate Hl.
    destruct (get d key) as [inner|] eqn:Hg; [|discriminate Hl].
    apply (IHp inner); [|exact Hl].
    cbn [untouched] in H. apply andb_prop in H as [_ Hall].
    rewrite forallb_forall in Hall.
    specialize (Hall _ (get_In d key inner Hg)). cbn in Hall.
    now apply andb_prop in Hall as [_ Hall].
Qed.

End RewritingMore.

(** Two keys that are replaced to different texts. *)
Lemma replace_updates_keeps_order_witness :
  replace_updates
    [("narupa.b"%string, VNumber 1); ("narupa.a"%string, VNone)]
    "narupa" "nanover"
  = [("nanover.b"%string, VNumber 1); ("nanover.a"%string, VNone)].
Proof.
  apply (replace_updates_keeps_order "narupa" "nanover"
           [("narupa.b"%string, VNumber 1); ("narupa.a"%string, VNone)]).
  cbn. repeat constructor; cbn; intuition discriminate.
Defined.

(** Updates written by NanoVer: no key holds the old name. *)
Lemma replace_updates_untouched_witness :
  replace_updates
    [("nanover.map"%string, VDict [("id"%string, VNumber 2)]);
     ("scene"%string, VList [])]
    "narupa" "nanover"
  = [("nanover.map"%string, VDict [("id"%string, VNumber 2)]);
     ("scene"%string, VList [])].
Proof.
  apply (replace_updates_untouched "narupa" "nanover"
           [("nanover.map"%string, VDict [("id"%string, VNumber 2)]);
            ("scene"%string, VList [])]).
  reflexivity.
Defined.

(** ** The tool on a recording without records *)

Section ToolMore.

Variable iter_state_recording : istream -> lazy (Z * DictionaryChange).
Variable dictionary_change_to_state_update : DictionaryChange -> bytes.

(** X12: [replace_and_copy_records] never writes; it returns normally
    exactly when the reader yields no record and ends normally; when the
    reader yields no record and raises (an invalid header, say), it raises
    what the reader raises. *)
Theorem replace_and_copy_records_outcomes (input_stream : istream)
    (to_replace replace_by : string) (output_stream : ostream) :
  let run := replace_and_copy_records iter_state_recording
               dictionary_change_to_state_update input_stream
               to_replace replace_by output_stream in
  fst run = output_stream
  /\ (snd run = Ok tt
      <-> items (iter_state_recording input_stream) = []
          /\ ending (iter_state_recording input_stream) = None)
  /\ (items (iter_state_recording input_stream) = [] ->
      snd run = ended (ending (iter_state_recording input_stream))).
Proof.
  intros run. subst run.
  split; [apply replace_and_copy_records_writes_nothing|].
  destruct (items (iter_state_recording input_stream)) as [|record rest] eqn:E.
  - unfold replace_and_copy_records. rewrite E. cbn [for_each].
    destruct (ending (iter_state_recording input_stream)) as [e|];
      cbn [wret lift snd ended].
    + split; [|reflexivity]. split; [discriminate|].
      intros [_ H]. discriminate H.
    + split; [|reflexivity]. split; auto.
  - rewrite (first_record_raises _ _ _ _ _ _ _ _ E). cbn [snd].
    split; [|discriminate].
    split; [discriminate|]. intros [H _]. discriminate H.
Qed.

End ToolMore.

(** ** The recorder: complete runs, overflow, one file for one stream *)

Section RecorderMore.

Open Scope Z_scope.

Lemma to_bytes_cases (n : Z) (len : nat) :
  (0 <= n < 256 ^ Z.of_nat len /\ to_bytes n len = Ok (le_digits n len))
  \/ (~ 0 <= n < 256 ^ Z.of_nat len /\ to_bytes n len = Raise OverflowError).
Proof.
  destruct (Z_lt_dec n 0) as [Hn|Hn].
  - right. split; [lia|]. apply to_bytes_overflow. now left.
  - destruct (Z_le_dec (256 ^ Z.of_nat len) n) as [Hn'|Hn'].
    + right. split; [lia|]. apply to_bytes_overflow. now right.
    + left. split; [lia|]. apply to_bytes_ok. lia.
Qed.

Lemma pow_256_16 : 256 ^ Z.of_nat 16 = 2 ^ 128.
Proof. reflexivity. Qed.

(** The record of a message is built when the message fits, and
    [OverflowError] is raised when it does not. *)
Lemma frame_record_cases (start_time : Z) (message : Z * bytes) :
  (fits start_time message
   /\ frame_record (fst message - start_time) (snd message)
      = Ok (encoded_record start_time message))
  \/ (~ fits start_time message
      /\ frame_record (fst message - start_time) (snd message)
         = Raise OverflowError).
Proof.
  unfold fits, frame_record, encoded_record.
  destruct (to_bytes_cases (fst message - start_time) 16) as [[He ->]|[He ->]];
    rewrite pow_256_16 in He; unfold bind.
  - destruct (to_bytes_cases (Z.of_nat (List.length (snd message))) 8)
      as [[Hs ->]|[Hs ->]]; rewrite pow_256_8 in Hs.
    + left. split; [split; [exact He|lia]|reflexivity].
    + right. split; [|reflexivity]. intros [_ H]. lia.
  - right. split; [|reflexivity]. intros [H _]. lia.
Qed.

Lemma record_loop_fits (start_time : Z) (ending : option exn) :
  forall (messages : list (Z * bytes)) (outfile : ostream),
    Forall (fits start_time) messages ->
    for_each messages ending (record_message start_time) outfile
    = (outfile ++ map (encoded_record start_time) messages, ended ending).
Proof.
  induction messages as [|[now p] rest IH]; intros outfile Hall.
  - cbn [for_each map]. rewrite app_nil_r. now destruct ending.
  - inversion Hall as [|? ? Hm Hrest]; subst.
    cbn [for_each]. unfold wbind at 1. unfold record_message, wbind, lift.
    destruct (frame_record_cases start_time (now, p)) as [[_ E]|[Hn _]];
      [|contradiction].
    cbn [fst snd] in E. rewrite E. unfold write.
    rewrite (IH _ Hrest). cbn [map]. now rewrite <- app_assoc.
Qed.

Lemma record_loop_overflow (start_time : Z) (ending : option exn)
    (message : Z * bytes) (post : list (Z * bytes)) :
  ~ fits start_time message ->
  forall (pre : list (Z * bytes)) (outfile : ostream),
    Forall (fits start_time) pre ->
    for_each (pre ++ message :: post) ending (record_message start_time) outfile
    = (outfile ++ map (encoded_record start_time) pre, Raise OverflowError).
Proof.
  intros Hbad.
  induction pre as [|[now p] pre IH]; intros outfile Hall.
  - cbn [app for_each map]. unfold wbind. destruct message as [now p].
    unfold record_message, wbind, lift.
    destruct (frame_record_cases start_time (now, p)) as [[Hf _]|[_ E]];
      [contradiction|].
    cbn [fst snd] in E. rewrite E. now rewrite app_nil_r.
  - inversion Hall as [|? ? Hm Hrest]; subst.
    cbn [app for_each]. unfold wbind at 1. unfold record_message, wbind, lift.
    destruct (frame_record_cases start_time (now, p)) as [[_ E]|[Hn _]];
      [|contradiction].
    cbn [fst snd] in E. rewrite E. unfold write.
    rewrite (IH _ Hrest). cbn [map]. now rewrite <- app_assoc.
Qed.

Lemma write_header_ok (recordings_MAGIC_NUMBER : Z) (outfile : ostream) :
  0 <= recordings_MAGIC_NUMBER < 2 ^ 64 ->
  write_header recordings_MAGIC_NUMBER outfile
  = (outfile ++ [le_digits recordings_MAGIC_NUMBER 8; le_digits 2 8], Ok tt).
Proof.
  intros HM. unfold write_header, wbind, lift, write.
  destruct (to_bytes_ok recordings_MAGIC_NUMBER 8) as (-> & _ & _);
    [now rewrite pow_256_8|].
  change (to_bytes 2 8) with (Ok (le_digits 2 8)). cbv iota beta.
  now rewrite <- app_assoc.
Qed.

Lemma record_stream_fits (recordings_MAGIC_NUMBER : Z)
    (stream : lazy (Z * bytes)) (start_time : Z) (outfile : ostream) :
  0 <= recordings_MAGIC_NUMBER < 2 ^ 64 ->
  Forall (fits start_time) (items stream) ->
  record_stream recordings_MAGIC_NUMBER stream start_time outfile
  = (outfile ++ [le_digits recordings_MAGIC_NUMBER 8; le_digits 2 8]
       ++ map (encoded_record start_time) (items stream),
     ended (ending stream)).
Proof.
  intros HM Hall. unfold record_stream, wbind.
  rewrite (write_header_ok _ outfile HM).
  rewrite (record_loop_fits _ _ _ _ Hall). now rewrite <- app_assoc.
Qed.

(** X13: when every message fits (elapsed time in 128 bits, size in 64),
    [record_stream] writes the header and then one whole record for each
    message, in the order of the stream, and ends as the stream ends:
    normally when the stream is exhausted, with the stream's exception
    otherwise, every message received before it being recorded. *)
Theorem record_stream_complete (recordings_MAGIC_NUMBER : Z)
    (stream : lazy (Z * bytes)) (start_time : Z) (outfile : ostream) :
  0 <= recordings_MAGIC_NUMBER < 2 ^ 64 ->
  Forall (fits start_time) (items stream) ->
  record_stream recordings_MAGIC_NUMBER stream start_time outfile
  = (outfile ++ [le_digits recordings_MAGIC_NUMBER 8; le_digits 2 8]
       ++ map (encoded_record start_time) (items stream),
     ended (ending stream)).
Proof.
  exact (record_stream_fits recordings_MAGIC_NUMBER stream start_time outfile).
Qed.

(** X14: the first message that does not fit, one that arrives when the
    clock reads less than [start_time] say, stops [record_stream] with
    [OverflowError]: the records of the messages before it are in the file,
    whole, and nothing of it or of the messages after it is. *)
Theorem record_stream_overflow (recordings_MAGIC_NUMBER : Z)
    (stream : lazy (Z * bytes)) (start_time : Z) (outfile : ostream)
    (pre post : list (Z * bytes)) (message : Z * bytes) :
  0 <= recordings_MAGIC_NUMBER < 2 ^ 64 ->
  items stream = pre ++ message :: post ->
  Forall (fits start_time) pre ->
  ~ fits start_time message ->
  record_stream recordings_MAGIC_NUMBER stream start_time outfile
  = (outfile ++ [le_digits recordings_MAGIC_NUMBER 8; le_digits 2 8]
       ++ map (encoded_record start_time) pre,
     Raise OverflowError).
Proof.
  intros HM Hitems Hpre Hbad. unfold record_stream, wbind.
  rewrite (write_header_ok _ outfile HM). rewrite Hitems.
  rewrite (record_loop_overflow _ _ _ _ Hbad _ _ Hpre). now rewrite <- app_assoc.
Qed.

Lemma app_eq_length {A : Type} (a b x y : list A) :
  List.length a = List.length b -> a ++ x = b ++ y -> a = b /\ x = y.
Proof.
  revert b. induction a as [|h a IH]; intros [|h' b] Hlen E;
    try discriminate Hlen.
  - now split.
  - cbn in E. injection E as <- E. injection Hlen as Hlen.
    destruct (IH b Hlen E) as [-> ->]. now split.
Qed.

Lemma le_digits_inj (len : nat) (n m : Z) :
  0 <= n < 256 ^ Z.of_nat len -> 0 <= m < 256 ^ Z.of_nat len ->
  le_digits n len = le_digits m len -> n = m.
Proof.
  intros Hn Hm E.
  destruct (to_bytes_ok n len Hn) as (_ & _ & <-).
  destruct (to_bytes_ok m len Hm) as (_ & _ & <-).
  now rewrite E.
Qed.

(** Records put one after the other can be told apart again. *)
Lemma encoded_records_inj (start1 start2 : Z) :
  forall ms1 ms2 : list (Z * bytes),
    Forall (fits start1) ms1 -> Forall (fits start2) ms2 ->
    List.concat (map (encoded_record start1) ms1)
    = List.concat (map (encoded_record start2) ms2) ->
    map (fun m => (fst m - start1, snd m)) ms1
    = map (fun m => (fst m - start2, snd m)) ms2.
Proof.
  induction ms1 as [|[n1 p1] ms1 IH]; intros [|[n2 p2] ms2] H1 H2 E.
  - reflexivity.
  - exfalso. apply (f_equal (@List.length byte)) in E.
    cbn [map List.concat] in E. unfold encoded_record in E.
    rewrite !length_app, length_le_digits in E. cbn in E. lia.
  - exfalso. apply (f_equal (@List.length byte)) in E.
    cbn [map List.concat] in E. unfold encoded_record in E.
    rewrite !length_app, length_le_digits in E. cbn in E. lia.
  - inversion H1 as [|? ? [He1 Hs1] H1']; subst.
    inversion H2 as [|? ? [He2 Hs2] H2']; subst.
    cbn [map List.concat fst snd] in *. unfold encoded_record in E.
    cbn [fst snd] in E. rewrite <- !app_assoc in E.
    apply app_eq_length in E as [Et E]; [|now rewrite !length_le_digits].
    apply app_eq_length in E as [Es E]; [|now rewrite !length_le_digits].
    apply le_digits_inj in Et; [|now rewrite pow_256_16..].
    apply le_digits_inj in Es; [|rewrite pow_256_8; lia..].
    apply Nat2Z.inj in Es.
    apply app_eq_length in E as [-> E]; [|exact Es].
    rewrite Et. f_equal. now apply IH.
Qed.

(** X15: a file determines what was recorded: two streams of messages that
    fit and leave files with the same contents hold the same elapsed times
    and the same payloads, in the same order. *)
Theorem record_stream_injective (recordings_MAGIC_NUMBER : Z)
    (stream1 stream2 : lazy (Z * bytes)) (start1 start2 : Z) :
  0 <= recordings_MAGIC_NUMBER < 2 ^ 64 ->
  Forall (fits start1) (items stream1) ->
  Forall (fits start2) (items stream2) ->
  contents (fst (record_stream recordings_MAGIC_NUMBER stream1 start1 []))
  = contents (fst (record_stream recordings_MAGIC_NUMBER stream2 start2 [])) ->
  map (fun m => (fst m - start1, snd m)) (items stream1)
  = map (fun m => (fst m - start2, snd m)) (items stream2).
Proof.
  intros HM H1 H2 E.
  rewrite (record_stream_fits _ stream1 start1 [] HM H1) in E.
  rewrite (record_stream_fits _ stream2 start2 [] HM H2) in E.
  cbn [fst app] in E. unfold contents in E. cbn [List.concat] in E.
  apply app_inv_head in E. apply app_inv_head in E.
  now apply encoded_records_inj.
Qed.

End RecorderMore.

(** Two messages recorded from time 5 on. *)
Lemma record_stream_complete_witness :
  record_stream Examples.magic
    (mkLazy [(12%Z, [x01]); (15%Z, [])] None) 5 []
  = ([] ++ [le_digits Examples.magic 8; le_digits 2 8]
        ++ map (encoded_record 5) [(12%Z, [x01]); (15%Z, [])],
     Ok tt).
Proof.
  apply (record_stream_complete Examples.magic
           (mkLazy [(12%Z, [x01]); (15%Z, [])] None) 5 []).
  - unfold Examples.magic. lia.
  - repeat constructor; cbn; lia.
Defined.

(** The second message arrives when the clock reads 3, before the start. *)
Lemma record_stream_overflow_witness :
  ~ fits 5 (3%Z, [x02])
  /\ record_stream Examples.magic
       (mkLazy [(12%Z, [x01]); (3%Z, [x02]); (20%Z, [])] None) 5 []
     = ([] ++ [le_digits Examples.magic 8; le_digits 2 8]
           ++ map (encoded_record 5) [(12%Z, [x01])],
        Raise OverflowError).
Proof.
  assert (Hbad : ~ fits 5 (3%Z, [x02])).
  { unfold fits. cbn. lia. }
  split; [exact Hbad|].
  apply (record_stream_overflow Examples.magic
           (mkLazy [(12%Z, [x01]); (3%Z, [x02]); (20%Z, [])] None) 5 []
           [(12%Z, [x01])] [(20%Z, [])] (3%Z, [x02])).
  - unfold Examples.magic. lia.
  - reflexivity.
  - repeat constructor; cbn; lia.
  - exact Hbad.
Defined.

(** The same message, seven microseconds after two different starts. *)
Lemma record_stream_injective_witness :
  map (fun m : Z * bytes => ((fst m - 5)%Z, snd m)) [(12%Z, [x01])]
  = map (fun m : Z * bytes => ((fst m - 100)%Z, snd m)) [(107%Z, [x01])].
Proof.
  apply (record_stream_injective Examples.magic
           (mkLazy [(12%Z, [x01])] None) (mkLazy [(107%Z, [x01])] (Some EOFError))
           5 100).
  - unfold Examples.magic. lia.
  - repeat constructor; cbn; lia.
  - repeat constructor; cbn; lia.
  - reflexivity.
Defined.

(** ** The recorder's command line *)

Section CommandLine.

Lemma list_ascii_of_string_app (a b : string) :
  list_ascii_of_string (a ++ b)
  = list_ascii_of_string a ++ list_ascii_of_string b.
Proof.
  induction a as [|c a IH]; cbn; [reflexivity|]. now rewrite IH.
Qed.

Lemma string_app_inv_tail (a b suffix : string) :
  (a ++ suffix)%string = (b ++ suffix)%string -> a = b.
Proof.
  intros E. apply (f_equal list_ascii_of_string) in E.
  rewrite !list_ascii_of_string_app in E. apply app_inv_tail in E.
  rewrite <- (string_of_list_ascii_of_string a).
  rewrite <- (string_of_list_ascii_of_string b). now rewrite E.
Qed.

(** X16: the two files of a recording are never the same file, and no state
    file of one recording is the trajectory file of another; two recordings
    share a state file, or a trajectory file, only when they have the same
    stem. *)
Theorem handle_user_input_paths (args1 args2 : recorder_args) :
  let state_path := fun args => snd (fst (handle_user_input args)) in
  let trajectory_path := fun args => snd (handle_user_input args) in
  state_path args1 <> trajectory_path args2
  /\ (state_path args1 = state_path args2
      <-> outfile_stem args1 = outfile_stem args2)
  /\ (trajectory_path args1 = trajectory_path args2
      <-> outfile_stem args1 = outfile_stem args2).
Proof.
  cbv zeta. unfold handle_user_input. cbn [fst snd].
  split; [|split].
  - intros E. apply (f_equal list_ascii_of_string) in E.
    rewrite !list_ascii_of_string_app in E.
    change (list_ascii_of_string ".state")
      with (list_ascii_of_string ".stat" ++ ["e"%char]) in E.
    change (list_ascii_of_string ".traj")
      with (list_ascii_of_string ".tra" ++ ["j"%char]) in E.
    rewrite !app_assoc in E. apply app_inj_tail in E as [_ E].
    discriminate E.
  - split; [apply string_app_inv_tail|now intros ->].
  - split; [apply string_app_inv_tail|now intros ->].
Qed.

End CommandLine.
